(** * Buy vs Rent simulator: the computation engine of [app.py]

    A shallow embedding of the financial core of [src/app.py] (EMI,
    amortization schedule, tax saving, cash-flow generator, NPV and the
    holding-period sweep), followed by the properties of the specification.

    Numbers.  The script computes with Python floats.  They are idealised
    here as exact rationals in lowest terms ([Qc]): every statement below is
    a statement of exact arithmetic, rounding is not modelled.  Python [int]
    values that stay integers ([tenure], [exit_year], loop counters) are [Z].

    Errors.  Python raises [ZeroDivisionError] on a float division by zero
    and on [0.0 ** k] for a negative [k], and [IndexError] on [l[-1]] for an
    empty list; these are the only exceptions of the exact model and they
    are threaded through a small error monad. *)

From Stdlib Require Import String ZArith QArith Qcanon Qround List Bool Lia Lqa.
Import ListNotations.

Open Scope Z_scope.
Open Scope Qc_scope.

(** ** Python values and exceptions *)

Module Py.

Inductive exn : Type :=
| ZeroDivisionError
| IndexError.

Inductive result (A : Type) : Type :=
| Ok (a : A)
| Raise (e : exn).
Arguments Ok {A} a.
Arguments Raise {A} e.

Definition bind {A B : Type} (c : result A) (k : A -> result B) : result B :=
  match c with
  | Ok a => k a
  | Raise e => Raise e
  end.

(** An integer used in float arithmetic. *)
Definition Zc (z : Z) : Qc := Q2Qc (inject_Z z).

Definition eqb (x y : Qc) : bool := Qeq_bool x y.
Definition leb (x y : Qc) : bool := Qle_bool x y.
Definition ltb (x y : Qc) : bool := negb (Qle_bool y x).

(** [a / b] with a divisor that is not a literal. *)
Definition div (a b : Qc) : result Qc :=
  if eqb b 0 then Raise ZeroDivisionError else Ok (a / b).

(** The value of [b ** e] for an integer [e], when it is defined. *)
Definition powZ (b : Qc) (e : Z) : Qc :=
  match e with
  | Z0 => 1
  | Zpos k => b ^ Pos.to_nat k
  | Zneg k => / (b ^ Pos.to_nat k)
  end.

(** [b ** e] on a float base and an int exponent. *)
Definition pow (b : Qc) (e : Z) : result Qc :=
  if eqb b 0 && (e <? 0)%Z then Raise ZeroDivisionError else Ok (powZ b e).

(** [min(a, b)]: the first argument unless the second is smaller. *)
Definition min (a b : Qc) : Qc := if ltb b a then b else a.

(** [range(a, b)]. *)
Definition range (a b : Z) : list Z :=
  map (fun i => (a + Z.of_nat i)%Z) (seq 0 (Z.to_nat (b - a))).

(** [sum(xs)]: left to right from 0. *)
Definition sum (xs : list Qc) : Qc := fold_left Qcplus xs 0.

(** [l[-1] += x]. *)
Definition add_last (l : list Qc) (x : Qc) : result (list Qc) :=
  match l with
  | [] => Raise IndexError
  | _ :: _ => Ok (removelast l ++ [last l 0 + x])
  end.

End Py.

Import Py.

Notation "x <- c ;; k" := (bind c (fun x => k))
  (at level 61, c at next level, right associativity).
Notation "' pat <- c ;; k" := (bind c (fun x => match x with pat => k end))
  (at level 61, pat pattern, c at next level, right associativity).

(** ** The sidebar inputs *)

Record inputs : Type := mkInputs {
  price : Qc;
  down_pct : Qc;
  loan_rate : Qc;
  tenure : Z;
  rent0 : Qc;
  rent_growth : Qc;
  house_growth : Qc;
  inv_return : Qc;
  inflation : Qc;
  disc : Qc;
  exit_year : Z;
  buy_commission : Qc;
  sell_commission : Qc;
  maintenance_pct : Qc;
  tax_rate : Qc;
  interest_deduction : Qc;
  principal_deduction : Qc
}.

(** The assignment [exit_year = y] of the holding-period loop. *)
Definition set_exit_year (p : inputs) (y : Z) : inputs :=
  mkInputs (price p) (down_pct p) (loan_rate p) (tenure p) (rent0 p)
    (rent_growth p) (house_growth p) (inv_return p) (inflation p) (disc p)
    y (buy_commission p) (sell_commission p) (maintenance_pct p)
    (tax_rate p) (interest_deduction p) (principal_deduction p).

(** One line of the amortization table
    ([["Year","Interest","Principal","Balance","Equity"]]). *)
Record row : Type := mkRow {
  Year : Qc;
  Interest : Qc;
  Principal : Qc;
  Balance : Qc;
  Equity : Qc
}.

(** ** EMI, amortization, tax benefit, cash flows and NPV *)

Section Engine.

Variable p : inputs.

Definition loan_amt : Qc := price p * (1 - down_pct p).
Definition r : Qc := loan_rate p / Zc 100 / Zc 12.
Definition n : Z := (tenure p * 12)%Z.

(** [emi = loan_amt*r*(1+r)**n/((1+r)**n-1)]; the power is evaluated
    twice in the script, with the same value. *)
Definition emi : result Qc :=
  g <- pow (1 + r) n ;;
  div (loan_amt * r * g) (g - 1).

(** The body of [for m in range(1, exit_year*12+1)], with the running
    [balance] as loop state. *)
Fixpoint schedule_loop (e : Qc) (months : list Z) (balance : Qc) : list row :=
  match months with
  | [] => []
  | m :: months' =>
      let interest := balance * r in
      let principal := e - interest in
      let balance := balance - principal in
      let equity := price p - balance in
      mkRow (Zc m / Zc 12) interest principal balance equity
        :: schedule_loop e months' balance
  end.

Definition schedule (e : Qc) : list row :=
  schedule_loop e (range 1 (exit_year p * 12 + 1)) loan_amt.

Definition tax_saving (interest principal : Qc) : Qc :=
  let interest_claim := min interest (interest_deduction p) in
  let principal_claim := min principal (principal_deduction p) in
  (interest_claim + principal_claim) * tax_rate p / Zc 100.

(** [Series.between(lo, hi)], inclusive on both sides by default. *)
Definition between (lo hi x : Qc) : bool := leb lo x && leb x hi.

(** [sched[sched["Year"].between(y-1,y)][col].sum()]. *)
Definition year_rows (sched : list row) (y : Z) : list row :=
  filter (fun rw => between (Zc (y - 1)) (Zc y) (Year rw)) sched.

Definition year_sum (col : row -> Qc) (sched : list row) (y : Z) : Qc :=
  sum (map col (year_rows sched y)).

(** The body of [for y in range(1, exit_year+1)] of [compute_npv]. *)
Fixpoint cashflow_loop (e : Qc) (sched : list row) (rg : Qc) (ys : list Z)
    (cf_buy cf_rent : list Qc) : result (list Qc * list Qc) :=
  match ys with
  | [] => Ok (cf_buy, cf_rent)
  | y :: ys' =>
      g <- pow (1 + rg / Zc 100) y ;;
      let rent := rent0 p * g in
      let cf_rent := cf_rent ++ [- (rent * Zc 12)] in
      let interest_year := year_sum Interest sched y in
      let principal_year := year_sum Principal sched y in
      let tax := tax_saving interest_year principal_year in
      let maintenance := price p * (maintenance_pct p / Zc 100) in
      let cf_buy := cf_buy ++ [- (e * Zc 12 + maintenance) + tax] in
      cashflow_loop e sched rg ys' cf_buy cf_rent
  end.

(** [sum(cf/((1+rate/100)**i) for i, cf in enumerate(cfs))].  A division
    by zero raises, as it does on Python floats; it needs [disc = -100],
    and no statement below depends on that case. *)
Fixpoint npv_from (rate : Qc) (i : Z) (cfs : list Qc) (acc : Qc) : result Qc :=
  match cfs with
  | [] => Ok acc
  | cf :: cfs' =>
      d <- pow (1 + rate / Zc 100) i ;;
      t <- div cf d ;;
      npv_from rate (i + 1) cfs' (acc + t)
  end.

Definition npv (rate : Qc) (cfs : list Qc) : result Qc :=
  npv_from rate 0 cfs 0.

Definition real_disc : result Qc :=
  q <- div (1 + disc p / Zc 100) (1 + inflation p / Zc 100) ;;
  Ok ((q - 1) * Zc 100).

(** The two cash-flow lists of [compute_npv], after the resale and the
    investment have been added to their last entries. *)
Definition cashflows (e : Qc) (sched : list row) (hg rg : Qc)
    : result (list Qc * list Qc) :=
  let downpayment := price p * down_pct p in
  let buy_comm := price p * buy_commission p / Zc 100 in
  '(cf_buy, cf_rent) <-
    cashflow_loop e sched rg (range 1 (exit_year p + 1))
      [- downpayment - buy_comm] [] ;;
  gh <- pow (1 + hg / Zc 100) (exit_year p) ;;
  let future_price := price p * gh in
  let resale := future_price * (1 - sell_commission p / Zc 100) in
  cf_buy <- add_last cf_buy resale ;;
  gi <- pow (1 + inv_return p / Zc 100) (exit_year p) ;;
  let invest := downpayment * gi in
  cf_rent <- add_last cf_rent invest ;;
  Ok (cf_buy, cf_rent).

(** [compute_npv(hg, rg)]; [e] and [sched] are the globals [emi] and
    [sched] it reads. *)
Definition compute_npv (e : Qc) (sched : list row) (hg rg : Qc)
    : result (Qc * Qc) :=
  '(cf_buy, cf_rent) <- cashflows e sched hg rg ;;
  rd <- real_disc ;;
  b <- npv rd cf_buy ;;
  rr <- npv rd cf_rent ;;
  Ok (b, rr).

End Engine.

(** ** The script *)

(** One run for the sidebar values: EMI, then the schedule to [exit_year],
    then [compute_npv]. *)
Definition pipeline (p : inputs) (hg rg : Qc) : result (Qc * Qc) :=
  e <- emi p ;;
  compute_npv p e (schedule p e) hg rg.

(** [years = range(3,26)]. *)
Definition years : list Z := range 3 26.

(** One iteration of [for y in years]: [exit_year = y] and a call of
    [compute_npv]; [emi] and [sched] are those computed at the top of the
    script, for the slider's [exit_year]. *)
Definition sweep_point (p : inputs) (y : Z) : result (Qc * Qc) :=
  e <- emi p ;;
  compute_npv (set_exit_year p y) e (schedule p e)
    (house_growth p) (rent_growth p).

(** One line of the scenario table
    ([["Scenario","NPV Buy","NPV Rent","Buy-Rent"]]). *)
Record scenario_row : Type := mkScenario {
  Scenario : string;
  NPV_Buy : Qc;
  NPV_Rent : Qc;
  Buy_Rent : Qc
}.

(** The dict [scenarios], in insertion order. *)
Definition scenarios (p : inputs) : list (string * (Qc * Qc)) :=
  [("Base"%string, (house_growth p, rent_growth p));
   ("Boom"%string, (house_growth p + Zc 3, rent_growth p + Zc 2));
   ("Crash"%string, (house_growth p - Zc 3, rent_growth p - Zc 1))].

(** [for name,(hg,rg) in scenarios.items()]: one call of [compute_npv] and
    one appended row per scenario. *)
Fixpoint scenario_loop (p : inputs) (e : Qc) (sched : list row)
    (items : list (string * (Qc * Qc))) (rows : list scenario_row)
    : result (list scenario_row) :=
  match items with
  | [] => Ok rows
  | (name, (hg, rg)) :: items' =>
      '(b, rr) <- compute_npv p e sched hg rg ;;
      scenario_loop p e sched items' (rows ++ [mkScenario name b rr (b - rr)])
  end.

Definition scenario_table (p : inputs) : result (list scenario_row) :=
  e <- emi p ;;
  scenario_loop p e (schedule p e) (scenarios p) [].

(** [for y in years]: the assignment [exit_year = y] stays in force for the
    next iteration, [emi] and [sched] are never recomputed. *)
Fixpoint sweep_loop (p : inputs) (e : Qc) (sched : list row) (ys : list Z)
    (buy_vals rent_vals : list Qc) : result (list Qc * list Qc) :=
  match ys with
  | [] => Ok (buy_vals, rent_vals)
  | y :: ys' =>
      let p := set_exit_year p y in
      '(b, rr) <- compute_npv p e sched (house_growth p) (rent_growth p) ;;
      sweep_loop p e sched ys' (buy_vals ++ [b]) (rent_vals ++ [rr])
  end.

Definition holding_period_sweep (p : inputs) : result (list Qc * list Qc) :=
  e <- emi p ;;
  sweep_loop p e (schedule p e) years [] [].

(** The default sidebar values. *)
Definition defaults : inputs :=
  mkInputs (Zc 8000000) (Zc 2 / Zc 10) (Zc 85 / Zc 10) 20
    (Zc 25000) (Zc 5) (Zc 5) (Zc 10) (Zc 5) (Zc 8) 10
    (Zc 1) (Zc 1) (Zc 1) (Zc 30) (Zc 200000) (Zc 150000).

(** ** Quantities the properties are stated with *)

(** The standard annuity payment for principal [P], monthly rate [i] and
    [N] months. *)
Definition annuity (P i : Qc) (N : Z) : Qc :=
  P * i * powZ (1 + i) N / (powZ (1 + i) N - 1).

(** The balance before the row of index [k]: the initial balance for the
    first row, the [Balance] of the row above otherwise. *)
Definition balance_before (sched : list row) (b0 : Qc) (k : nat) : Qc :=
  match k with
  | O => b0
  | S j => match nth_error sched j with
           | Some rw => Balance rw
           | None => b0
           end
  end.

(** The balance after month [m] of the schedule; month 0 is the loan
    amount. *)
Definition balance_at (p : inputs) (e : Qc) (m : Z) : Qc :=
  balance_before (schedule p e) (loan_amt p) (Z.to_nat m).

(** [m] is the smaller of [x] and [y]. *)
Definition least_of (m x y : Qc) : Prop :=
  m <= x /\ m <= y /\ (m = x \/ m = y).

(** The sidebar with another income tax rate. *)
Definition set_tax_rate (p : inputs) (t : Qc) : inputs :=
  mkInputs (price p) (down_pct p) (loan_rate p) (tenure p) (rent0 p)
    (rent_growth p) (house_growth p) (inv_return p) (inflation p) (disc p)
    (exit_year p) (buy_commission p) (sell_commission p) (maintenance_pct p)
    t (interest_deduction p) (principal_deduction p).

Section Series.

Variable p : inputs.

(** The rent paid in year [y] and the buy-side outflow of year [y], as
    the loop of [compute_npv] appends them. *)
Definition rent_year (rg : Qc) (y : Z) : Qc :=
  - (rent0 p * powZ (1 + rg / Zc 100) y * Zc 12).

Definition buy_year (e : Qc) (sched : list row) (y : Z) : Qc :=
  - (e * Zc 12 + price p * (maintenance_pct p / Zc 100))
  + tax_saving p (year_sum Interest sched y) (year_sum Principal sched y).

Definition resale (hg : Qc) : Qc :=
  price p * powZ (1 + hg / Zc 100) (exit_year p)
  * (1 - sell_commission p / Zc 100).

Definition invest : Qc :=
  price p * down_pct p * powZ (1 + inv_return p / Zc 100) (exit_year p).

Definition upfront : Qc :=
  - (price p * down_pct p) - price p * buy_commission p / Zc 100.

(** The two lists [compute_npv] discounts. *)
Definition buy_series (e : Qc) (sched : list row) (hg : Qc) : list Qc :=
  (upfront :: map (buy_year e sched) (range 1 (exit_year p)))
  ++ [buy_year e sched (exit_year p) + resale hg].

Definition rent_series (rg : Qc) : list Qc :=
  map (rent_year rg) (range 1 (exit_year p))
  ++ [rent_year rg (exit_year p) + invest].

End Series.

(** The discounted sum [npv] computes when no division fails. *)
Fixpoint disc_sum (rate : Qc) (i : Z) (cfs : list Qc) (acc : Qc) : Qc :=
  match cfs with
  | [] => acc
  | cf :: cfs' =>
      disc_sum rate (i + 1) cfs' (acc + cf / powZ (1 + rate / Zc 100) i)
  end.

(** The real discount rate of Fisher's equation, in percent. *)
Definition fisher (p : inputs) : Qc :=
  ((1 + disc p / Zc 100) / (1 + inflation p / Zc 100) - 1) * Zc 100.

(** The sidebar with another loan tenure, or another inflation rate. *)
Definition set_tenure (p : inputs) (t : Z) : inputs :=
  mkInputs (price p) (down_pct p) (loan_rate p) t (rent0 p)
    (rent_growth p) (house_growth p) (inv_return p) (inflation p) (disc p)
    (exit_year p) (buy_commission p) (sell_commission p) (maintenance_pct p)
    (tax_rate p) (interest_deduction p) (principal_deduction p).

Definition set_inflation (p : inputs) (i : Qc) : inputs :=
  mkInputs (price p) (down_pct p) (loan_rate p) (tenure p) (rent0 p)
    (rent_growth p) (house_growth p) (inv_return p) i (disc p)
    (exit_year p) (buy_commission p) (sell_commission p) (maintenance_pct p)
    (tax_rate p) (interest_deduction p) (principal_deduction p).

(** The invalid inputs in the words of the specification: a non-positive
    tenure, an inflation rate with [1 + inflation <= 0], a holding horizon
    [<= 0]. *)
Definition invalid_input (p : inputs) : Prop :=
  (tenure p <= 0)%Z \/
  1 + inflation p / Zc 100 <= 0 \/
  (exit_year p <= 0)%Z.

(** The balance left after the months [ms], from the balance [b]. *)
Fixpoint end_balance (p : inputs) (e : Qc) (ms : list Z) (b : Qc) : Qc :=
  match ms with
  | [] => b
  | _ :: ms' => end_balance p e ms' (b - (e - b * r p))
  end.

(** * Properties *)

(** ** Arithmetic of the exact model *)

Lemma Qc_eq_Qeq (a b : Qc) : a = b -> (this a == this b)%Q.
Proof. intros ->. reflexivity. Qed.

Lemma Qc_neq_Qeq (a b : Qc) : a <> b -> ~ (this a == this b)%Q.
Proof. intros H E. apply H, Qc_is_canon, E. Qed.

(** Goals of order and equality on [Qc] are moved to [Q], where [lra] and
    [nra] apply. *)
Ltac qc2q :=
  unfold Qcle, Qclt, Qcminus, Qcdiv, Zc in *;
  repeat match goal with
  | H : @eq Qc _ _ |- _ => apply Qc_eq_Qeq in H
  | H : ~ @eq Qc _ _ |- _ => apply Qc_neq_Qeq in H
  | |- @eq Qc _ _ => apply Qc_is_canon
  | |- ~ @eq Qc _ _ => let E := fresh in intro E; apply Qc_eq_Qeq in E
  end;
  cbn [this Qcplus Qcmult Qcopp Qcinv Q2Qc] in *;
  rewrite ?Qred_correct in *.

Lemma Zc_100_nonzero : Zc 100 <> 0.
Proof. intro H. apply (f_equal this) in H. vm_compute in H. discriminate. Qed.

Lemma Zc_12_nonzero : Zc 12 <> 0.
Proof. intro H. apply (f_equal this) in H. vm_compute in H. discriminate. Qed.

Lemma Zc_12_pos : 0 < Zc 12.
Proof. reflexivity. Qed.

Lemma Zc_le (a b : Z) : (a <= b)%Z <-> Zc a <= Zc b.
Proof.
  unfold Qcle, Zc; cbn [this Q2Qc]. rewrite !Qred_correct.
  now rewrite <- Zle_Qle.
Qed.

Lemma leb_le (x y : Qc) : leb x y = true <-> x <= y.
Proof. unfold leb, Qcle. apply Qle_bool_iff. Qed.

Lemma ltb_lt (x y : Qc) : ltb x y = true <-> x < y.
Proof.
  unfold ltb, Qclt. rewrite negb_true_iff, <- not_true_iff_false, Qle_bool_iff.
  split; [apply Qnot_le_lt | apply Qlt_not_le].
Qed.

Lemma eqb_eq (x y : Qc) : eqb x y = true <-> x = y.
Proof.
  unfold eqb. rewrite Qeq_bool_iff. split.
  - apply Qc_is_canon.
  - intros ->. reflexivity.
Qed.

Lemma eqb_neq (x y : Qc) : eqb x y = false <-> x <> y.
Proof. rewrite <- eqb_eq. symmetry. apply not_true_iff_false. Qed.

Lemma Qcpower_ge1 (b : Qc) (k : nat) : 1 <= b -> 1 <= b ^ k.
Proof.
  intro Hb. induction k as [|k IH]; cbn [Qcpower].
  - apply Qcle_refl.
  - qc2q. nra.
Qed.

Lemma Qcpower_gt1 (b : Qc) (k : nat) : 1 < b -> (0 < k)%nat -> 1 < b ^ k.
Proof.
  intros Hb Hk. destruct k as [|k]; [lia|]. cbn [Qcpower].
  assert (H1 : 1 <= b ^ k) by (apply Qcpower_ge1, Qclt_le_weak, Hb).
  qc2q. nra.
Qed.

Lemma Qcpower_nonzero (b : Qc) (k : nat) : b <> 0 -> b ^ k <> 0.
Proof.
  intro Hb. induction k as [|k IH]; cbn [Qcpower].
  - discriminate.
  - intro H. apply Qcmult_integral in H. tauto.
Qed.

Lemma pow_nonneg (b : Qc) (e : Z) : (0 <= e)%Z -> pow b e = Ok (powZ b e).
Proof.
  intro He. unfold pow.
  replace (e <? 0)%Z with false by (symmetry; apply Z.ltb_ge, He).
  now rewrite andb_false_r.
Qed.

Lemma pow_nonzero (b : Qc) (e : Z) : b <> 0 -> pow b e = Ok (powZ b e).
Proof.
  intro Hb. unfold pow. apply eqb_neq in Hb. now rewrite Hb.
Qed.

Lemma powZ_of_nat (b : Qc) (k : nat) : powZ b (Z.of_nat k) = b ^ k.
Proof.
  destruct k as [|k]; [reflexivity|].
  cbn [Z.of_nat powZ]. now rewrite SuccNat2Pos.id_succ.
Qed.

Lemma powZ_gt1 (b : Qc) (e : Z) : 1 < b -> (0 < e)%Z -> 1 < powZ b e.
Proof.
  intros Hb He. replace e with (Z.of_nat (Z.to_nat e)) by lia.
  rewrite powZ_of_nat. apply Qcpower_gt1; [exact Hb | lia].
Qed.

Lemma powZ_nonzero (b : Qc) (e : Z) : b <> 0 -> powZ b e <> 0.
Proof.
  intro Hb. destruct e as [|k|k]; cbn [powZ].
  - discriminate.
  - now apply Qcpower_nonzero.
  - intro H. pose proof (Qcpower_nonzero b (Pos.to_nat k) Hb) as Hk.
    apply Qcmult_inv_r in Hk. rewrite H, Qcmult_0_r in Hk. discriminate.
Qed.

Lemma div_nonzero (a b : Qc) : b <> 0 -> div a b = Ok (a / b).
Proof. intro Hb. unfold div. apply eqb_neq in Hb. now rewrite Hb. Qed.

Lemma Zc_mult (a b : Z) : Zc (a * b) = Zc a * Zc b.
Proof.
  apply Qc_is_canon. unfold Zc. cbn [this Qcmult Q2Qc].
  rewrite !Qred_correct, inject_Z_mult. reflexivity.
Qed.

Lemma year_fraction_le (m y : Z) : Zc m / Zc 12 <= Zc y <-> (m <= 12 * y)%Z.
Proof.
  rewrite (Zc_le m (12 * y)), Zc_mult.
  pose proof Zc_12_pos as H12. pose proof Zc_12_nonzero as Hnz.
  replace (Zc m) with (Zc m / Zc 12 * Zc 12) at 2 by (field; exact Hnz).
  generalize dependent (Zc 12). intros c Hc _.
  generalize (Zc m / c). generalize (Zc y). intros a b.
  qc2q. split; intro H; nra.
Qed.

Lemma year_fraction_ge (m y : Z) : Zc y <= Zc m / Zc 12 <-> (12 * y <= m)%Z.
Proof.
  rewrite (Zc_le (12 * y) m), Zc_mult.
  pose proof Zc_12_pos as H12. pose proof Zc_12_nonzero as Hnz.
  replace (Zc m) with (Zc m / Zc 12 * Zc 12) at 2 by (field; exact Hnz).
  generalize dependent (Zc 12). intros c Hc _.
  generalize (Zc m / c). generalize (Zc y). intros a b.
  qc2q. split; intro H; nra.
Qed.

Lemma between_months (m y : Z) :
  between (Zc (y - 1)) (Zc y) (Zc m / Zc 12) = true
  <-> (12 * (y - 1) <= m <= 12 * y)%Z.
Proof.
  unfold between.
  rewrite andb_true_iff, !leb_le, year_fraction_le, year_fraction_ge.
  reflexivity.
Qed.

(** ** EMI *)

Lemma emi_ok (p : inputs) :
  0 < r p -> (0 < n p)%Z -> emi p = Ok (annuity (loan_amt p) (r p) (n p)).
Proof.
  intros Hr Hn. unfold emi, annuity.
  rewrite pow_nonneg by lia. cbn [bind].
  apply div_nonzero.
  assert (Hg : 1 < powZ (1 + r p) (n p)).
  { apply powZ_gt1; [qc2q; lra | exact Hn]. }
  intro H. qc2q. lra.
Qed.

(** C5.  For a principal [P >= 0], a monthly rate [r > 0] and a term of
    [N > 0] months the script's [emi] is computed without error and equals
    [P * r * (1+r)^N / ((1+r)^N - 1)]. *)
Theorem emi_annuity_formula (p : inputs) :
  0 <= loan_amt p -> 0 < r p -> (0 < n p)%Z ->
  emi p =
  Ok (loan_amt p * r p * powZ (1 + r p) (n p) / (powZ (1 + r p) (n p) - 1)).
Proof. intros _ Hr Hn. exact (emi_ok p Hr Hn). Qed.

(** The scenario of the specification: price 8,000,000, 20% down, 8.5% over
    20 years, that is [P = 6,400,000], [r = 0.085/12] and [N = 240]. *)
Lemma emi_annuity_formula_defaults :
  loan_amt defaults = Zc 6400000 /\
  r defaults = Zc 85 / Zc 1000 / Zc 12 /\
  n defaults = 240%Z /\
  emi defaults =
  Ok (Zc 6400000 * (Zc 85 / Zc 1000 / Zc 12)
      * powZ (1 + Zc 85 / Zc 1000 / Zc 12) 240
      / (powZ (1 + Zc 85 / Zc 1000 / Zc 12) 240 - 1)).
Proof.
  assert (HP : loan_amt defaults = Zc 6400000)
    by (apply Qc_is_canon; vm_compute; reflexivity).
  assert (Hr : r defaults = Zc 85 / Zc 1000 / Zc 12)
    by (apply Qc_is_canon; vm_compute; reflexivity).
  split; [exact HP|]. split; [exact Hr|]. split; [reflexivity|].
  rewrite <- HP, <- Hr.
  apply (emi_annuity_formula defaults).
  - rewrite HP. vm_compute. discriminate.
  - rewrite Hr. vm_compute. reflexivity.
  - reflexivity.
Defined.

(** ** [range] *)

Lemma range_length (a b : Z) : length (range a b) = Z.to_nat (b - a).
Proof. unfold range. now rewrite length_map, length_seq. Qed.

Lemma range_nil (a b : Z) : (b <= a)%Z -> range a b = [].
Proof.
  intro H. unfold range. replace (Z.to_nat (b - a)) with 0%nat by lia.
  reflexivity.
Qed.

Lemma range_cons (a b : Z) : (a < b)%Z -> range a b = a :: range (a + 1) b.
Proof.
  intro H. unfold range.
  replace (Z.to_nat (b - a)) with (S (Z.to_nat (b - (a + 1)))) by lia.
  cbn [seq map]. f_equal; [lia|].
  rewrite <- seq_shift, map_map. apply map_ext. intro i. lia.
Qed.

Lemma range_app (a m b : Z) :
  (a <= m <= b)%Z -> range a b = range a m ++ range m b.
Proof.
  remember (Z.to_nat (m - a)) as k eqn:Hk. revert a Hk.
  induction k as [|k IH]; intros a Hk H.
  - replace m with a by lia. now rewrite (range_nil a a) by lia.
  - rewrite (range_cons a b), (range_cons a m) by lia.
    cbn [app]. f_equal. apply IH; lia.
Qed.

Lemma range_In (a b x : Z) : In x (range a b) <-> (a <= x < b)%Z.
Proof.
  unfold range. rewrite in_map_iff. split.
  - intros [i [<- Hi]]. apply in_seq in Hi. lia.
  - intro H. exists (Z.to_nat (x - a)). split; [lia|]. apply in_seq. lia.
Qed.

Lemma range_nth_error (a b : Z) (k : nat) :
  (Z.of_nat k < b - a)%Z ->
  nth_error (range a b) k = Some (a + Z.of_nat k)%Z.
Proof.
  intro H. unfold range. rewrite nth_error_map, nth_error_seq.
  replace (k <? Z.to_nat (b - a))%nat with true
    by (symmetry; apply Nat.ltb_lt; lia).
  reflexivity.
Qed.

(** ** The amortization schedule *)

Section Schedule.

Variable p : inputs.
Variable e : Qc.

Lemma schedule_loop_length (ms : list Z) (b : Qc) :
  length (schedule_loop p e ms b) = length ms.
Proof.
  revert b. induction ms as [|m ms IH]; intro b; cbn; [reflexivity|].
  now rewrite IH.
Qed.

Lemma schedule_loop_row (ms : list Z) :
  forall (b : Qc) (k : nat) (rw : row),
    nth_error (schedule_loop p e ms b) k = Some rw ->
    let prev := balance_before (schedule_loop p e ms b) b k in
    Interest rw = prev * r p /\
    Principal rw = e - Interest rw /\
    Balance rw = prev - Principal rw /\
    Equity rw = price p - Balance rw /\
    exists m, nth_error ms k = Some m /\ Year rw = Zc m / Zc 12.
Proof.
  induction ms as [|m ms IH]; intros b k rw Hk.
  - destruct k; discriminate.
  - destruct k as [|k].
    + cbn in Hk. injection Hk as <-. cbn.
      repeat split. exists m. now split.
    + cbn [schedule_loop nth_error] in Hk.
      specialize (IH _ k rw Hk). cbn zeta in IH |- *.
      destruct k as [|k]; [exact IH|].
      cbn [schedule_loop balance_before nth_error] in IH |- *.
      destruct (nth_error _ k) as [rw'|] eqn:Hprev; [exact IH|].
      apply nth_error_None in Hprev.
      assert (Hlt : (S k < length
        (schedule_loop p e ms (b - (e - b * r p))))%nat)
        by (apply nth_error_Some; rewrite Hk; discriminate).
      lia.
Qed.

Lemma schedule_loop_equity (ms : list Z) (b : Qc) :
  Forall (fun rw => Equity rw + Balance rw = price p)
    (schedule_loop p e ms b).
Proof.
  revert b. induction ms as [|m ms IH]; intro b; cbn [schedule_loop].
  - constructor.
  - constructor; [cbn; ring | apply IH].
Qed.

Lemma schedule_loop_principal_nonneg (ms : list Z) :
  forall b : Qc,
    0 <= r p -> 0 <= e - b * r p ->
    Forall (fun rw => 0 <= Principal rw) (schedule_loop p e ms b).
Proof.
  induction ms as [|m ms IH]; intros b Hr Hb; cbn [schedule_loop].
  - constructor.
  - constructor; [exact Hb|].
    apply IH; [exact Hr|]. qc2q. nra.
Qed.

Lemma schedule_length :
  length (schedule p e) = Z.to_nat (exit_year p * 12).
Proof.
  unfold schedule. rewrite schedule_loop_length, range_length. f_equal. lia.
Qed.

Lemma schedule_row (m : Z) :
  (1 <= m <= exit_year p * 12)%Z ->
  exists rw,
    nth_error (schedule p e) (Z.to_nat (m - 1)) = Some rw /\
    Year rw = Zc m / Zc 12 /\
    Interest rw = balance_at p e (m - 1) * r p /\
    Principal rw = e - Interest rw /\
    Balance rw = balance_at p e (m - 1) - Principal rw /\
    Equity rw = price p - Balance rw /\
    balance_at p e m = Balance rw.
Proof.
  intro Hm.
  destruct (nth_error (schedule p e) (Z.to_nat (m - 1))) as [rw|] eqn:Hrw.
  2:{ apply nth_error_None in Hrw. rewrite schedule_length in Hrw. lia. }
  exists rw. split; [reflexivity|].
  pose proof (schedule_loop_row _ _ _ _ Hrw) as H.
  cbn zeta in H. destruct H as (Hi & Hp & Hb & He & m' & Hm' & Hy).
  rewrite range_nth_error in Hm'; [|lia].
  apply (f_equal (fun o => match o with Some x => x | None => 0%Z end))
    in Hm'. cbv beta iota in Hm'.
  assert (Em : m' = m) by lia. rewrite Em in Hy. clear Em Hm'.
  unfold balance_at. fold (schedule p e) in Hi, Hb.
  do 5 (split; [assumption|]).
  replace (Z.to_nat m) with (S (Z.to_nat (m - 1))) by lia.
  cbn [balance_before]. now rewrite Hrw.
Qed.

End Schedule.

(** C6.  In the row of every month [m] of the schedule, interest and
    principal add up to the EMI and the balance is the previous balance less
    the principal; the balance before the first month is the loan amount. *)
Theorem amortization_row_identities (p : inputs) (e : Qc) (m : Z) :
  (1 <= m <= exit_year p * 12)%Z ->
  balance_at p e 0 = loan_amt p /\
  exists rw,
    nth_error (schedule p e) (Z.to_nat (m - 1)) = Some rw /\
    Year rw = Zc m / Zc 12 /\
    Interest rw + Principal rw = e /\
    Balance rw = balance_at p e (m - 1) - Principal rw /\
    balance_at p e m = Balance rw.
Proof.
  intro Hm. split; [reflexivity|].
  destruct (schedule_row p e m Hm) as (rw & Hn & Hy & Hi & Hp & Hb & _ & Ha).
  exists rw. repeat (split; [assumption|]).
  split; [|split; assumption].
  rewrite Hp. ring.
Qed.

Lemma amortization_row_identities_first_month :
  (1 <= 1 <= exit_year defaults * 12)%Z /\
  exists rw,
    nth_error (schedule defaults (Zc 55540)) 0 = Some rw /\
    Interest rw + Principal rw = Zc 55540 /\
    Balance rw = loan_amt defaults - Principal rw.
Proof.
  assert (H : (1 <= 1 <= exit_year defaults * 12)%Z)
    by (split; discriminate).
  split; [exact H|].
  destruct (amortization_row_identities defaults (Zc 55540) 1 H)
    as (H0 & rw & Hn & _ & Hs & Hb & _).
  exists rw. split; [exact Hn|]. split; [exact Hs|].
  rewrite <- H0. exact Hb.
Defined.

(** C7.  In every row of the schedule, equity and balance add up to the
    house price. *)
Theorem equity_plus_balance_is_price (p : inputs) (e : Qc) :
  Forall (fun rw => Equity rw + Balance rw = price p) (schedule p e).
Proof. apply schedule_loop_equity. Qed.

(** The EMI covers the first month's interest: [emi - P*r = P*r/((1+r)^N-1)]. *)
Lemma annuity_covers_interest (P i : Qc) (N : Z) :
  0 <= P -> 0 < i -> (0 < N)%Z -> 0 <= annuity P i N - P * i.
Proof.
  intros HP Hi HN.
  assert (Hg : 1 < powZ (1 + i) N) by (apply powZ_gt1; [qc2q; lra | exact HN]).
  assert (Hd : powZ (1 + i) N - 1 <> 0) by (qc2q; lra).
  replace (annuity P i N - P * i) with (P * i * / (powZ (1 + i) N - 1))
    by (unfold annuity; field; exact Hd).
  assert (Hinv : 0 < / (powZ (1 + i) N - 1)).
  { qc2q. apply Qinv_lt_0_compat. lra. }
  qc2q. apply Qmult_le_0_compat; [|apply Qlt_le_weak, Hinv].
  apply Qmult_le_0_compat; lra.
Qed.

(** C10.  With a principal [>= 0], a monthly rate [> 0] and a term [> 0],
    the EMI is computed and the balance never increases from one month of
    the schedule to the next. *)
Theorem balance_non_increasing (p : inputs) :
  0 <= loan_amt p -> 0 < r p -> (0 < n p)%Z ->
  exists e,
    emi p = Ok e /\
    forall m, (1 <= m <= exit_year p * 12)%Z ->
      balance_at p e m <= balance_at p e (m - 1).
Proof.
  intros HP Hr Hn. exists (annuity (loan_amt p) (r p) (n p)).
  split; [apply emi_ok; assumption|]. intros m Hm.
  destruct (schedule_row p (annuity (loan_amt p) (r p) (n p)) m Hm)
    as (rw & Hnth & _ & _ & _ & Hb & _ & Ha).
  assert (Hpr : 0 <= Principal rw).
  { pose proof (schedule_loop_principal_nonneg p
      (annuity (loan_amt p) (r p) (n p))
      (range 1 (exit_year p * 12 + 1)) (loan_amt p)
      (Qclt_le_weak _ _ Hr) (annuity_covers_interest _ _ _ HP Hr Hn)) as HF.
    rewrite Forall_forall in HF. apply HF.
    eapply nth_error_In. exact Hnth. }
  rewrite Ha, Hb. qc2q. lra.
Qed.

Lemma balance_non_increasing_defaults :
  (0 <= loan_amt defaults /\ 0 < r defaults /\ (0 < n defaults)%Z) /\
  exists e,
    emi defaults = Ok e /\
    forall m, (1 <= m <= exit_year defaults * 12)%Z ->
      balance_at defaults e m <= balance_at defaults e (m - 1).
Proof.
  assert (HP : 0 <= loan_amt defaults) by (vm_compute; discriminate).
  assert (Hr : 0 < r defaults) by (vm_compute; reflexivity).
  assert (Hn : (0 < n defaults)%Z) by reflexivity.
  split; [repeat split; assumption|].
  exact (balance_non_increasing defaults HP Hr Hn).
Defined.

(** ** Tax benefit *)

Lemma min_least (a b : Qc) : least_of (min a b) a b.
Proof.
  unfold least_of, min. destruct (ltb b a) eqn:H.
  - apply ltb_lt in H. repeat split; [qc2q; lra | apply Qcle_refl | now right].
  - assert (Hab : a <= b).
    { apply Qcnot_lt_le. intro Hlt. apply ltb_lt in Hlt. congruence. }
    repeat split; [apply Qcle_refl | exact Hab | now left].
Qed.

Lemma min_saturates (a cap : Qc) : cap <= a -> min a cap = cap.
Proof.
  intro H. destruct (min_least a cap) as (Ha & Hc & [E|E]); [|exact E].
  apply Qcle_antisym; [exact Hc | now rewrite E].
Qed.

Lemma min_nonneg (a b : Qc) : 0 <= a -> 0 <= b -> 0 <= min a b.
Proof.
  intros Ha Hb. destruct (min_least a b) as (_ & _ & [E|E]); now rewrite E.
Qed.

Lemma Qmult_le_l_weak (x y z : Q) :
  (0 <= z)%Q -> (x <= y)%Q -> (z * x <= z * y)%Q.
Proof. intros Hz Hxy. nra. Qed.

Lemma tax_saving_fraction (p : inputs) (interest principal : Qc) :
  tax_saving p interest principal =
  (min interest (interest_deduction p) + min principal (principal_deduction p))
  * (tax_rate p / Zc 100).
Proof. unfold tax_saving. field. apply Zc_100_nonzero. Qed.

(** C9.  For non-negative interest, principal, tax rate and caps, the tax
    saving is [(min(interest, interest_cap) + min(principal, principal_cap))]
    times the tax rate (a percentage, hence [/100]); it does not decrease
    when the tax rate grows, and it is [(interest_cap + principal_cap)] times
    the tax rate once interest and principal reach their caps. *)
Theorem tax_saving_capped (p : inputs) (interest principal : Qc) :
  0 <= interest -> 0 <= principal -> 0 <= tax_rate p ->
  0 <= interest_deduction p -> 0 <= principal_deduction p ->
  (exists a b,
     least_of a interest (interest_deduction p) /\
     least_of b principal (principal_deduction p) /\
     tax_saving p interest principal = (a + b) * (tax_rate p / Zc 100)) /\
  (forall t, tax_rate p <= t ->
     tax_saving p interest principal
     <= tax_saving (set_tax_rate p t) interest principal) /\
  (interest_deduction p <= interest -> principal_deduction p <= principal ->
     tax_saving p interest principal
     = (interest_deduction p + principal_deduction p) * (tax_rate p / Zc 100)).
Proof.
  intros Hi Hp Ht Hic Hpc. split; [|split].
  - exists (min interest (interest_deduction p)),
      (min principal (principal_deduction p)).
    split; [apply min_least|]. split; [apply min_least|].
    apply tax_saving_fraction.
  - intros t Hle. rewrite !tax_saving_fraction. cbn [set_tax_rate
      tax_rate interest_deduction principal_deduction].
    pose proof (min_nonneg _ _ Hi Hic) as H1.
    pose proof (min_nonneg _ _ Hp Hpc) as H2.
    assert (Hc : 0 < / Zc 100) by reflexivity.
    unfold Qcdiv. generalize dependent (/ Zc 100). intros c Hc.
    qc2q.
    assert (Htc : (tax_rate p * c <= t * c)%Q) by nra.
    apply Qmult_le_l_weak; [lra | exact Htc].
  - intros H1 H2. rewrite tax_saving_fraction.
    now rewrite (min_saturates _ _ H1), (min_saturates _ _ H2).
Qed.

Lemma tax_saving_capped_defaults :
  (0 <= Zc 500000 /\ 0 <= Zc 100000 /\ 0 <= tax_rate defaults /\
   0 <= interest_deduction defaults /\ 0 <= principal_deduction defaults) /\
  tax_saving defaults (Zc 500000) (Zc 100000) = Zc 90000 /\
  tax_saving defaults (Zc 500000) (Zc 100000)
  <= tax_saving (set_tax_rate defaults (Zc 40)) (Zc 500000) (Zc 100000).
Proof.
  assert (H1 : 0 <= Zc 500000) by (vm_compute; discriminate).
  assert (H2 : 0 <= Zc 100000) by (vm_compute; discriminate).
  assert (H3 : 0 <= tax_rate defaults) by (vm_compute; discriminate).
  assert (H4 : 0 <= interest_deduction defaults) by (vm_compute; discriminate).
  assert (H5 : 0 <= principal_deduction defaults) by (vm_compute; discriminate).
  split; [repeat split; assumption|].
  destruct (tax_saving_capped defaults (Zc 500000) (Zc 100000) H1 H2 H3 H4 H5)
    as (_ & Hmono & _).
  split.
  - apply Qc_is_canon. vm_compute. reflexivity.
  - apply Hmono. vm_compute. discriminate.
Defined.

(** ** Cash flows *)

Section CashFlows.

Variable p : inputs.

Lemma cashflow_loop_ok (e : Qc) (sched : list row) (rg : Qc) (ys : list Z) :
  Forall (fun y => (0 <= y)%Z) ys ->
  forall cf_buy cf_rent,
    cashflow_loop p e sched rg ys cf_buy cf_rent =
    Ok (cf_buy ++ map (buy_year p e sched) ys,
        cf_rent ++ map (rent_year p rg) ys).
Proof.
  induction 1 as [|y ys Hy _ IH]; intros cf_buy cf_rent.
  - cbn. now rewrite !app_nil_r.
  - cbn [cashflow_loop]. rewrite (pow_nonneg _ _ Hy). cbn [bind].
    rewrite IH. cbn [map]. now rewrite <- !app_assoc.
Qed.

Lemma range_nonneg (b : Z) : Forall (fun y => (0 <= y)%Z) (range 1 b).
Proof. apply Forall_forall. intros y Hy. apply range_In in Hy. lia. Qed.

Lemma range_last (b : Z) :
  (1 <= b)%Z -> range 1 (b + 1) = range 1 b ++ [b].
Proof.
  intro Hb. rewrite (range_app 1 b (b + 1)) by lia. f_equal.
  rewrite range_cons by lia. now rewrite range_nil by lia.
Qed.

Lemma add_last_snoc (l : list Qc) (a x : Qc) :
  add_last (l ++ [a]) x = Ok (l ++ [a + x]).
Proof.
  unfold add_last. rewrite removelast_last, last_last.
  destruct l; reflexivity.
Qed.

Lemma cashflows_ok (e : Qc) (sched : list row) (hg rg : Qc) :
  (1 <= exit_year p)%Z ->
  cashflows p e sched hg rg =
  Ok (buy_series p e sched hg, rent_series p rg).
Proof.
  intro H. unfold cashflows.
  rewrite cashflow_loop_ok by apply range_nonneg. cbn [bind].
  rewrite !pow_nonneg by lia. cbn [bind].
  rewrite (range_last _ H), !map_app. cbn [map].
  rewrite app_assoc, add_last_snoc. cbn [bind app].
  rewrite add_last_snoc. reflexivity.
Qed.

(** Without a single year the rent list is empty and [cf_rent[-1]]
    fails, unless a power of zero has failed before. *)
Lemma cashflows_no_year (e : Qc) (sched : list row) (hg rg : Qc) :
  (exit_year p <= 0)%Z ->
  exists x, cashflows p e sched hg rg = Raise x.
Proof.
  intro H. unfold cashflows. rewrite range_nil by lia. cbn [cashflow_loop bind].
  destruct (pow (1 + hg / Zc 100) (exit_year p)) as [gh|x];
    [|now exists x].
  cbn [bind add_last].
  destruct (pow (1 + inv_return p / Zc 100) (exit_year p)) as [gi|x];
    [now exists IndexError | now exists x].
Qed.

End CashFlows.

(** ** NPV *)

Lemma npv_from_ok (rate : Qc) (cfs : list Qc) :
  1 + rate / Zc 100 <> 0 ->
  forall i acc, npv_from rate i cfs acc = Ok (disc_sum rate i cfs acc).
Proof.
  intro Hb. induction cfs as [|cf cfs IH]; intros i acc; [reflexivity|].
  cbn [npv_from disc_sum]. rewrite (pow_nonzero _ _ Hb). cbn [bind].
  rewrite div_nonzero by now apply powZ_nonzero. cbn [bind]. apply IH.
Qed.

Lemma real_disc_ok (p : inputs) :
  1 + inflation p / Zc 100 <> 0 -> real_disc p = Ok (fisher p).
Proof. intro H. unfold real_disc. now rewrite div_nonzero. Qed.

Lemma real_disc_zero (p : inputs) :
  1 + inflation p / Zc 100 = 0 -> real_disc p = Raise ZeroDivisionError.
Proof. intro H. unfold real_disc. now rewrite H. Qed.

Lemma fisher_base (p : inputs) :
  1 + inflation p / Zc 100 <> 0 -> 1 + disc p / Zc 100 <> 0 ->
  1 + fisher p / Zc 100 <> 0.
Proof.
  intros Hi Hd. unfold fisher.
  generalize dependent (1 + inflation p / Zc 100). intros b Hb.
  generalize dependent (1 + disc p / Zc 100). intros a Ha.
  replace (1 + (a / b - 1) * Zc 100 / Zc 100) with (a * / b)
    by (field; split; [exact Hb | apply Zc_100_nonzero]).
  intro H. apply Qcmult_integral in H. destruct H as [H|H]; [tauto|].
  apply Qcmult_inv_r in Hb. rewrite H, Qcmult_0_r in Hb. discriminate.
Qed.

Lemma compute_npv_ok (p : inputs) (e : Qc) (sched : list row) (hg rg : Qc) :
  (1 <= exit_year p)%Z ->
  1 + inflation p / Zc 100 <> 0 -> 1 + disc p / Zc 100 <> 0 ->
  compute_npv p e sched hg rg =
  Ok (disc_sum (fisher p) 0 (buy_series p e sched hg) 0,
      disc_sum (fisher p) 0 (rent_series p rg) 0).
Proof.
  intros H Hi Hd. unfold compute_npv, npv.
  rewrite cashflows_ok by exact H. cbn [bind].
  rewrite real_disc_ok by exact Hi. cbn [bind].
  rewrite !npv_from_ok by (apply fisher_base; assumption).
  reflexivity.
Qed.

(** C8.  The loop of [compute_npv] leaves, for every year [y] of the
    horizon, the rent cash flow [-12 * rent0 * (1+rg)^y] at position [y-1]
    of the rent list; the investment is then added to the last entry only. *)
Theorem rent_cash_flow_by_year (p : inputs) (e : Qc) (sched : list row)
    (rg : Qc) :
  exists cf_buy cf_rent,
    cashflow_loop p e sched rg (range 1 (exit_year p + 1)) [upfront p] []
    = Ok (cf_buy, cf_rent) /\
    (forall y, (1 <= y <= exit_year p)%Z ->
       nth_error cf_rent (Z.to_nat (y - 1))
       = Some (- (Zc 12 * rent0 p * powZ (1 + rg / Zc 100) y))) /\
    (forall hg, (1 <= exit_year p)%Z ->
       exists cf_buy',
         cashflows p e sched hg rg
         = Ok (cf_buy', removelast cf_rent ++ [last cf_rent 0 + invest p])).
Proof.
  eexists. eexists. split; [apply cashflow_loop_ok, range_nonneg|].
  cbn [app]. split.
  - intros y Hy. rewrite nth_error_map, range_nth_error by lia.
    cbn [option_map]. f_equal. unfold rent_year.
    replace (1 + Z.of_nat (Z.to_nat (y - 1)))%Z with y by lia. ring.
  - intros hg H. eexists. rewrite (cashflows_ok p e sched hg rg H).
    unfold rent_series.
    rewrite (range_last _ H), map_app. cbn [map].
    now rewrite removelast_last, last_last.
Qed.

(** The scenario of the specification: rent0 = 25,000, rent growth 5% and a
    horizon of one year. *)
Lemma rent_cash_flow_first_year :
  (1 <= 1 <= exit_year (set_exit_year defaults 1))%Z /\
  exists cf_buy cf_rent,
    cashflow_loop (set_exit_year defaults 1) (Zc 55540) [] (Zc 5)
      (range 1 2) [upfront defaults] []
    = Ok (cf_buy, cf_rent) /\
    nth_error cf_rent 0 = Some (Zc (-315000)).
Proof.
  assert (H : (1 <= 1 <= exit_year (set_exit_year defaults 1))%Z)
    by (split; discriminate).
  split; [exact H|].
  destruct (rent_cash_flow_by_year (set_exit_year defaults 1) (Zc 55540) []
              (Zc 5)) as (cf_buy & cf_rent & Hloop & Hy & _).
  exists cf_buy, cf_rent. split; [exact Hloop|].
  transitivity
    (Some (- (Zc 12 * rent0 (set_exit_year defaults 1)
              * powZ (1 + Zc 5 / Zc 100) 1))); [exact (Hy 1%Z H)|].
  f_equal; apply Qc_is_canon; vm_compute; reflexivity.
Defined.

(** ** Concrete runs *)

(** Closed goals on rationals are settled by evaluation. *)
Ltac qc_compute :=
  lazymatch goal with
  | |- @eq Qc _ _ => apply Qc_is_canon; vm_compute; reflexivity
  | |- ~ @eq Qc _ _ =>
      let H := fresh in
      intro H; apply Qc_eq_Qeq in H; vm_compute in H; discriminate
  | |- Qcle _ _ => vm_compute; discriminate
  | |- Qclt _ _ => vm_compute; reflexivity
  end.

(** C2.  The default sidebar with the shortest holding period of the
    slider, three years.  The rent list has three entries, for the years 1,
    2 and 3: the rent of year 1 enters the NPV undiscounted, that of year 2
    discounted once and that of year 3 (with the investment) twice, one
    power of [1+real] less than a series indexed [0..horizon] with a zero
    at index 0 would give. *)
Theorem rent_npv_discounts_year_y_by_y_minus_1 :
  let p := set_exit_year defaults 3 in
  let rent y := - (Zc 12 * Zc 25000 * powZ (1 + Zc 5 / Zc 100) y) in
  let inv := Zc 1600000 * powZ (1 + Zc 10 / Zc 100) 3 in
  exists b rr real,
    real_disc p = Ok real /\
    real = ((1 + Zc 8 / Zc 100) / (1 + Zc 5 / Zc 100) - 1) * Zc 100 /\
    pipeline p (Zc 5) (Zc 5) = Ok (b, rr) /\
    rent 1%Z = Zc (-315000) /\
    rr = rent 1%Z
         + rent 2%Z / (1 + real / Zc 100)
         + (rent 3%Z + inv) / powZ (1 + real / Zc 100) 2 /\
    rr <> rent 1%Z / (1 + real / Zc 100)
          + rent 2%Z / powZ (1 + real / Zc 100) 2
          + (rent 3%Z + inv) / powZ (1 + real / Zc 100) 3.
Proof.
  intros p rent inv.
  assert (Hi : 1 + inflation p / Zc 100 <> 0) by qc_compute.
  assert (Hd : 1 + disc p / Zc 100 <> 0) by qc_compute.
  assert (Hr : 0 < r p) by qc_compute.
  assert (Hn : (0 < n p)%Z) by reflexivity.
  assert (Hy : (1 <= exit_year p)%Z) by discriminate.
  eexists. exists (disc_sum (fisher p) 0 (rent_series p (Zc 5)) 0).
  exists (fisher p).
  split; [apply real_disc_ok, Hi|].
  split; [qc_compute|].
  split.
  { unfold pipeline. rewrite (emi_ok p Hr Hn). cbn [bind].
    apply compute_npv_ok; assumption. }
  split; [qc_compute|].
  split; qc_compute.
Qed.

(** The row of the last month of year [y-1] is in the window of year [y-1]
    and in the window of year [y]. *)
Lemma boundary_month_in_both_windows (p : inputs) (e : Qc) (y : Z) :
  (2 <= y <= exit_year p)%Z ->
  exists rw,
    nth_error (schedule p e) (Z.to_nat (12 * (y - 1) - 1)) = Some rw /\
    Year rw = Zc (12 * (y - 1)) / Zc 12 /\
    In rw (year_rows (schedule p e) (y - 1)) /\
    In rw (year_rows (schedule p e) y).
Proof.
  intro Hy.
  destruct (schedule_row p e (12 * (y - 1))) as (rw & Hn & Hyr & _); [lia|].
  exists rw. split; [exact Hn|]. split; [exact Hyr|].
  split; apply filter_In; (split; [eapply nth_error_In; exact Hn|]);
    rewrite Hyr; apply between_months; lia.
Qed.

(** C1.  The default sidebar (ten years).  The row of month 12, whose
    [Year] is exactly 1, passes the filter [between(0, 1)] of year 1 and the
    filter [between(1, 2)] of year 2: the aggregates of year 2 sum thirteen
    rows, those of year 1 twelve. *)
Theorem year_window_counts_boundary_month_twice (e : Qc) :
  exists rw,
    nth_error (schedule defaults e) 11 = Some rw /\
    Year rw = Zc 1 /\
    In rw (year_rows (schedule defaults e) 1) /\
    In rw (year_rows (schedule defaults e) 2) /\
    length (year_rows (schedule defaults e) 1) = 12%nat /\
    length (year_rows (schedule defaults e) 2) = 13%nat.
Proof.
  assert (H : (1 <= 12 <= exit_year defaults * 12)%Z) by (split; discriminate).
  destruct (schedule_row defaults e 12 H) as (rw & Hn & Hy & _).
  assert (Hy1 : Year rw = Zc 1) by (rewrite Hy; qc_compute).
  exists rw. split; [exact Hn|]. split; [exact Hy1|].
  split; [|split].
  - apply filter_In. split; [eapply nth_error_In; exact Hn|].
    rewrite Hy1. reflexivity.
  - apply filter_In. split; [eapply nth_error_In; exact Hn|].
    rewrite Hy1. reflexivity.
  - split; lazy; reflexivity.
Qed.

(** ** Invalid inputs *)

Lemma emi_zero_tenure (p : inputs) :
  tenure p = 0%Z -> emi p = Raise ZeroDivisionError.
Proof.
  intro H. unfold emi, n. rewrite H. cbn [Z.mul].
  rewrite pow_nonneg by lia. reflexivity.
Qed.

Lemma powZ_neq_1 (b : Qc) (e : Z) : 1 < b -> e <> 0%Z -> powZ b e <> 1.
Proof.
  intros Hb He. destruct e as [|k|k]; [tauto| |].
  - pose proof (powZ_gt1 b (Z.pos k) Hb eq_refl) as H. qc2q. lra.
  - pose proof (powZ_gt1 b (Z.pos k) Hb eq_refl) as H.
    cbn [powZ] in H |- *. intro E.
    assert (Hnz : b ^ Pos.to_nat k <> 0) by (qc2q; lra).
    apply Qcmult_inv_r in Hnz. rewrite E, Qcmult_1_r in Hnz.
    rewrite Hnz in H. discriminate.
Qed.

Lemma emi_defined (p : inputs) :
  0 < r p -> tenure p <> 0%Z -> exists e, emi p = Ok e.
Proof.
  intros Hr Ht. unfold emi.
  assert (Hb : 1 < 1 + r p) by (qc2q; lra).
  rewrite pow_nonzero by (qc2q; lra). cbn [bind].
  eexists. apply div_nonzero.
  pose proof (powZ_neq_1 (1 + r p) (n p) Hb) as H.
  intro E. apply H; [unfold n; lia|]. qc2q. lra.
Qed.

Lemma pipeline_defined (p : inputs) (e hg rg : Qc) :
  emi p = Ok e -> (1 <= exit_year p)%Z ->
  1 + inflation p / Zc 100 <> 0 -> 1 + disc p / Zc 100 <> 0 ->
  exists v, pipeline p hg rg = Ok v.
Proof.
  intros He Hy Hi Hd. unfold pipeline. rewrite He. cbn [bind].
  rewrite compute_npv_ok by assumption. eauto.
Qed.

(** C4, as stated, fails: a tenure of -20 years is an invalid input, and
    the run on it returns a pair of NPVs. *)
Lemma negative_tenure_is_not_rejected :
  invalid_input (set_tenure defaults (-20)) /\
  exists v, pipeline (set_tenure defaults (-20)) (Zc 5) (Zc 5) = Ok v.
Proof.
  split; [left; discriminate|].
  destruct (emi_defined (set_tenure defaults (-20))) as [e He];
    [qc_compute | discriminate |].
  apply (pipeline_defined _ e); [exact He | discriminate | qc_compute ..].
Qed.

(** Nor is an inflation of -200%, for which [1 + inflation/100 = -1]. *)
Lemma negative_inflation_base_is_not_rejected :
  invalid_input (set_inflation defaults (Zc (-200))) /\
  exists v, pipeline (set_inflation defaults (Zc (-200))) (Zc 5) (Zc 5) = Ok v.
Proof.
  split; [right; left; qc_compute|].
  destruct (emi_defined (set_inflation defaults (Zc (-200)))) as [e He];
    [qc_compute | discriminate |].
  apply (pipeline_defined _ e); [exact He | discriminate | qc_compute ..].
Qed.

(** C4, amended.  The script validates nothing; an invalid input fails only
    where the arithmetic itself does.  A tenure of zero raises
    [ZeroDivisionError] when the EMI is computed; once the EMI is computed, a
    horizon [<= 0] raises in [compute_npv], and so does an inflation with
    [1 + inflation/100 = 0] on a horizon of at least one year.  Any other
    tenure at a positive loan rate gives an EMI, and any other inflation
    gives a pair of NPVs (for a horizon of at least one year and
    [1 + disc/100 <> 0]), also when the tenure or [1 + inflation/100] is
    negative. *)
Theorem invalid_input_fails_only_in_arithmetic (p : inputs) (hg rg : Qc) :
  ((tenure p = 0)%Z ->
     emi p = Raise ZeroDivisionError /\
     pipeline p hg rg = Raise ZeroDivisionError) /\
  (forall e, emi p = Ok e -> (exit_year p <= 0)%Z ->
     exists x, pipeline p hg rg = Raise x) /\
  (forall e, emi p = Ok e -> (1 <= exit_year p)%Z ->
     1 + inflation p / Zc 100 = 0 ->
     pipeline p hg rg = Raise ZeroDivisionError) /\
  (0 < r p -> tenure p <> 0%Z -> exists e, emi p = Ok e) /\
  (forall e, emi p = Ok e -> (1 <= exit_year p)%Z ->
     1 + inflation p / Zc 100 <> 0 -> 1 + disc p / Zc 100 <> 0 ->
     exists v, pipeline p hg rg = Ok v).
Proof.
  split; [|split; [|split; [|split]]].
  - intro H. unfold pipeline. now rewrite (emi_zero_tenure p H).
  - intros e He Hy. unfold pipeline, compute_npv. rewrite He. cbn [bind].
    destruct (cashflows_no_year p e (schedule p e) hg rg Hy) as [x Hx].
    exists x. now rewrite Hx.
  - intros e He Hy Hi. unfold pipeline, compute_npv. rewrite He. cbn [bind].
    rewrite cashflows_ok by exact Hy. cbn [bind].
    now rewrite real_disc_zero.
  - apply emi_defined.
  - intros e. apply pipeline_defined.
Qed.

Lemma invalid_input_fails_only_in_arithmetic_zero_tenure :
  tenure (set_tenure defaults 0) = 0%Z /\
  emi (set_tenure defaults 0) = Raise ZeroDivisionError /\
  pipeline (set_tenure defaults 0) (Zc 5) (Zc 5) = Raise ZeroDivisionError.
Proof.
  split; [reflexivity|].
  exact (proj1 (invalid_input_fails_only_in_arithmetic
                  (set_tenure defaults 0) (Zc 5) (Zc 5)) eq_refl).
Defined.


(** ** The holding-period sweep *)

(** *** Sums *)

Lemma fold_plus_acc (l : list Qc) (a : Qc) :
  fold_left Qcplus l a = a + fold_left Qcplus l 0.
Proof.
  revert a. induction l as [|x l IH]; intro a; cbn [fold_left].
  - ring.
  - rewrite (IH (a + x)), (IH (0 + x)). ring.
Qed.

Lemma sum_cons (x : Qc) (l : list Qc) : sum (x :: l) = x + sum l.
Proof.
  unfold sum. cbn [fold_left]. rewrite fold_plus_acc. ring.
Qed.

Lemma sum_app (l1 l2 : list Qc) : sum (l1 ++ l2) = sum l1 + sum l2.
Proof.
  induction l1 as [|x l1 IH]; cbn [app].
  - unfold sum at 2. cbn. ring.
  - rewrite !sum_cons, IH. ring.
Qed.

Lemma sum_nonneg (l : list Qc) : Forall (fun x => 0 <= x) l -> 0 <= sum l.
Proof.
  induction 1 as [|x l Hx _ IH].
  - apply Qcle_refl.
  - rewrite sum_cons. qc2q. lra.
Qed.

Lemma sum_pos (l : list Qc) (x : Qc) :
  Forall (fun x => 0 <= x) l -> In x l -> 0 < x -> 0 < sum l.
Proof.
  intros Hl Hin Hx. induction Hl as [|a l Ha Hl IH]; [contradiction|].
  rewrite sum_cons. pose proof (sum_nonneg l Hl) as Hs.
  destruct Hin as [->|Hin].
  - qc2q. lra.
  - specialize (IH Hin). qc2q. lra.
Qed.

(** *** Schedules to two horizons *)

Section Horizons.

Variable p : inputs.
Variable e : Qc.

Lemma schedule_set_exit_year (H : Z) :
  schedule (set_exit_year p H) e =
  schedule_loop p e (range 1 (H * 12 + 1)) (loan_amt p).
Proof. reflexivity. Qed.

Lemma schedule_loop_app (l1 l2 : list Z) (b : Qc) :
  schedule_loop p e (l1 ++ l2) b =
  schedule_loop p e l1 b ++ schedule_loop p e l2 (end_balance p e l1 b).
Proof.
  revert b. induction l1 as [|m l1 IH]; intro b; [reflexivity|].
  cbn [app schedule_loop end_balance]. now rewrite IH.
Qed.

Lemma schedule_loop_years (ms : list Z) (b : Qc) :
  Forall (fun rw => exists m, In m ms /\ Year rw = Zc m / Zc 12)
    (schedule_loop p e ms b).
Proof.
  revert b. induction ms as [|m ms IH]; intro b; cbn [schedule_loop].
  - constructor.
  - constructor.
    + exists m. split; [now left | reflexivity].
    + eapply Forall_impl; [|apply IH].
      intros rw (m' & Hin & Hy). exists m'. split; [now right | exact Hy].
Qed.

Lemma year_rows_app (s1 s2 : list row) (y : Z) :
  year_rows (s1 ++ s2) y = year_rows s1 y ++ year_rows s2 y.
Proof. apply filter_app. Qed.

Lemma year_rows_none (ms : list Z) (b : Qc) (y : Z) :
  (forall m, In m ms -> ~ (12 * (y - 1) <= m <= 12 * y)%Z) ->
  year_rows (schedule_loop p e ms b) y = [].
Proof.
  intro Hout. unfold year_rows.
  pose proof (schedule_loop_years ms b) as HF.
  induction HF as [|rw l (m & Hin & Hy) _ IH]; [reflexivity|].
  cbn [filter]. rewrite Hy.
  destruct (between _ _ _) eqn:Hb; [|exact IH].
  apply between_months in Hb. now apply Hout in Hin.
Qed.

Lemma schedule_extends (H1 H2 : Z) :
  (0 <= H1 <= H2)%Z ->
  schedule (set_exit_year p H2) e =
  schedule (set_exit_year p H1) e
  ++ schedule_loop p e (range (H1 * 12 + 1) (H2 * 12 + 1))
       (end_balance p e (range 1 (H1 * 12 + 1)) (loan_amt p)).
Proof.
  intro H. rewrite !schedule_set_exit_year.
  rewrite (range_app 1 (H1 * 12 + 1) (H2 * 12 + 1)) by lia.
  apply schedule_loop_app.
Qed.

(** Up to the shorter horizon the two schedules put the same rows in every
    year window. *)
Lemma year_rows_prefix (H1 H2 y : Z) :
  (0 <= H1 <= H2)%Z -> (y <= H1)%Z ->
  year_rows (schedule (set_exit_year p H2) e) y =
  year_rows (schedule (set_exit_year p H1) e) y.
Proof.
  intros H Hy. rewrite (schedule_extends H1 H2 H), year_rows_app.
  rewrite year_rows_none; [apply app_nil_r|].
  intros m Hm. apply range_In in Hm. lia.
Qed.

(** A window beyond the year after the horizon finds no row at all. *)
Lemma year_rows_beyond (H y : Z) :
  (H + 2 <= y)%Z -> year_rows (schedule (set_exit_year p H) e) y = [].
Proof.
  intro Hy. rewrite schedule_set_exit_year. apply year_rows_none.
  intros m Hm. apply range_In in Hm. lia.
Qed.

Lemma year_sum_le (col : row -> Qc) (H1 H2 y : Z) :
  (0 <= H1 <= H2)%Z ->
  Forall (fun rw => 0 <= col rw) (schedule (set_exit_year p H2) e) ->
  year_sum col (schedule (set_exit_year p H1) e) y
  <= year_sum col (schedule (set_exit_year p H2) e) y.
Proof.
  intros H Hcol. unfold year_sum.
  rewrite (schedule_extends H1 H2 H) in Hcol |- *.
  rewrite year_rows_app, map_app, sum_app.
  apply Forall_app in Hcol. destruct Hcol as [_ Hcol].
  assert (Hs : 0 <= sum (map col (year_rows
    (schedule_loop p e (range (H1 * 12 + 1) (H2 * 12 + 1))
       (end_balance p e (range 1 (H1 * 12 + 1)) (loan_amt p))) y))).
  { apply sum_nonneg, Forall_map. unfold year_rows.
    rewrite Forall_forall in Hcol |- *. intros rw Hrw.
    apply filter_In in Hrw. now apply Hcol. }
  qc2q. lra.
Qed.

Lemma year_sum_pos (col : row -> Qc) (H y : Z) :
  (1 <= y <= H)%Z ->
  Forall (fun rw => 0 <= col rw) (schedule (set_exit_year p H) e) ->
  (forall rw, In rw (schedule (set_exit_year p H) e) -> 0 < col rw) ->
  0 < year_sum col (schedule (set_exit_year p H) e) y.
Proof.
  intros Hy Hcol Hpos. unfold year_sum.
  destruct (schedule_row (set_exit_year p H) e (12 * y)) as (rw & Hn & Hyr & _).
  { cbn [exit_year set_exit_year]. lia. }
  assert (Hin : In rw (year_rows (schedule (set_exit_year p H) e) y)).
  { apply filter_In. split; [eapply nth_error_In; exact Hn|].
    rewrite Hyr. apply between_months. lia. }
  apply (sum_pos _ (col rw)).
  - apply Forall_map. rewrite Forall_forall in Hcol |- *.
    intros rw' Hrw'. apply filter_In in Hrw'. now apply Hcol.
  - now apply in_map.
  - apply Hpos. eapply nth_error_In. exact Hn.
Qed.

End Horizons.

(** *** Signs of the columns *)

Lemma Qcpower_pos_strict (b : Qc) (k : nat) : 0 < b -> 0 < b ^ k.
Proof.
  intro Hb. induction k as [|k IH]; cbn [Qcpower]; [reflexivity|].
  qc2q. nra.
Qed.

Lemma Qcpower_le_mono (b : Qc) (j k : nat) :
  1 <= b -> (j <= k)%nat -> b ^ j <= b ^ k.
Proof.
  intros Hb Hjk. induction Hjk as [|k Hjk IH]; [apply Qcle_refl|].
  cbn [Qcpower].
  assert (Hj : 0 < b ^ j) by (apply Qcpower_pos_strict; qc2q; lra).
  qc2q. nra.
Qed.

Lemma schedule_loop_principal (p : inputs) (e : Qc) (ms : list Z) :
  forall (b : Qc) (j : nat) (rw : row),
    nth_error (schedule_loop p e ms b) j = Some rw ->
    Principal rw = (e - b * r p) * (1 + r p) ^ j.
Proof.
  induction ms as [|m ms IH]; intros b j rw Hj.
  - destruct j; discriminate.
  - destruct j as [|j]; cbn [schedule_loop nth_error] in Hj.
    + injection Hj as <-. cbn. ring.
    + rewrite (IH _ _ _ Hj). cbn [Qcpower]. ring.
Qed.

(** With the EMI of the annuity formula, the principal of month [j+1] is
    [c * (1+r)^j] and the interest [c * ((1+r)^N - (1+r)^j)], for
    [c = P*r / ((1+r)^N - 1)]. *)
Lemma annuity_split (P i : Qc) (N : Z) :
  powZ (1 + i) N - 1 <> 0 ->
  annuity P i N - P * i = P * i / (powZ (1 + i) N - 1) /\
  annuity P i N = P * i / (powZ (1 + i) N - 1) * powZ (1 + i) N.
Proof. intro Hd. unfold annuity. split; field; exact Hd. Qed.

Lemma schedule_signs (p : inputs) (H : Z) :
  0 < loan_amt p -> 0 < r p -> (0 < n p)%Z -> (H * 12 <= n p)%Z ->
  forall rw,
    In rw (schedule (set_exit_year p H)
             (annuity (loan_amt p) (r p) (n p))) ->
    0 <= Interest rw /\ 0 < Principal rw.
Proof.
  intros HP Hr Hn HH rw Hin.
  apply In_nth_error in Hin. destruct Hin as [j Hj].
  assert (Hlen : (j < Z.to_nat (H * 12))%nat).
  { pose proof (schedule_length (set_exit_year p H)
                  (annuity (loan_amt p) (r p) (n p))) as Hl.
    cbn [exit_year set_exit_year] in Hl. rewrite <- Hl.
    apply nth_error_Some. rewrite Hj. discriminate. }
  rewrite schedule_set_exit_year in Hj.
  pose proof (schedule_loop_principal _ _ _ _ _ _ Hj) as Hpr.
  destruct (schedule_loop_row _ _ _ _ _ _ Hj) as (_ & Hint & _).
  assert (Hg : 1 < powZ (1 + r p) (n p))
    by (apply powZ_gt1; [qc2q; lra | exact Hn]).
  assert (Hd : powZ (1 + r p) (n p) - 1 <> 0) by (qc2q; lra).
  destruct (annuity_split (loan_amt p) (r p) (n p) Hd) as [Hc He].
  set (c := loan_amt p * r p / (powZ (1 + r p) (n p) - 1)) in *.
  assert (Hcpos : 0 < c).
  { unfold c. qc2q. apply Qmult_lt_0_compat; [nra|].
    apply Qinv_lt_0_compat. lra. }
  assert (Hpj : 0 < (1 + r p) ^ j) by (apply Qcpower_pos_strict; qc2q; lra).
  assert (Hle : (1 + r p) ^ j <= powZ (1 + r p) (n p)).
  { replace (n p) with (Z.of_nat (Z.to_nat (n p))) by lia.
    rewrite powZ_of_nat. apply Qcpower_le_mono; [qc2q; lra | lia]. }
  assert (Hi : Interest rw
               = annuity (loan_amt p) (r p) (n p) - Principal rw)
    by (rewrite Hint; ring).
  rewrite Hi, Hpr, Hc. rewrite He at 1.
  clearbody c.
  remember ((1 + r p) ^ j) as a eqn:Ea.
  remember (powZ (1 + r p) (n p)) as g eqn:Eg.
  clear - Hcpos Hpj Hle. split; qc2q; nra.
Qed.

(** *** The tax saving and the discounted sum are monotone *)

Lemma min_mono (a a' c : Qc) : a <= a' -> min a c <= min a' c.
Proof.
  intro H.
  destruct (min_least a c) as (H1 & H2 & _).
  destruct (min_least a' c) as (_ & _ & [E|E]); rewrite E.
  - apply (Qcle_trans _ a); assumption.
  - exact H2.
Qed.

Lemma min_zero (c : Qc) : 0 <= c -> min 0 c = 0.
Proof.
  intro H. unfold min. destruct (ltb c 0) eqn:E; [|reflexivity].
  apply ltb_lt in E. qc2q. lra.
Qed.

Lemma min_pos (a c : Qc) : 0 < a -> 0 < c -> 0 < min a c.
Proof.
  intros Ha Hc. destruct (min_least a c) as (_ & _ & [E|E]); now rewrite E.
Qed.

Lemma tax_saving_mono (p : inputs) (i i' pr pr' : Qc) :
  0 <= tax_rate p -> i <= i' -> pr <= pr' ->
  tax_saving p i pr <= tax_saving p i' pr'.
Proof.
  intros Ht Hi Hp. rewrite !tax_saving_fraction.
  pose proof (min_mono i i' (interest_deduction p) Hi) as H1.
  pose proof (min_mono pr pr' (principal_deduction p) Hp) as H2.
  assert (Hc : 0 < / Zc 100) by reflexivity.
  unfold Qcdiv. remember (/ Zc 100) as c eqn:Ec. clear Ec.
  remember (min i (interest_deduction p)) as a1.
  remember (min i' (interest_deduction p)) as a2.
  remember (min pr (principal_deduction p)) as b1.
  remember (min pr' (principal_deduction p)) as b2.
  clear - Ht H1 H2 Hc. qc2q.
  assert (Htc : (0 <= tax_rate p * c)%Q) by nra.
  rewrite !(Qmult_comm _ (tax_rate p * c)).
  apply Qmult_le_l_weak; [exact Htc | lra].
Qed.

Lemma tax_saving_zero (p : inputs) :
  0 <= interest_deduction p -> 0 <= principal_deduction p ->
  tax_saving p 0 0 = 0.
Proof.
  intros Hi Hp. rewrite tax_saving_fraction, !min_zero by assumption. ring.
Qed.

Lemma tax_saving_pos (p : inputs) (i pr : Qc) :
  0 < tax_rate p -> 0 <= interest_deduction p -> 0 < principal_deduction p ->
  0 <= i -> 0 < pr -> 0 < tax_saving p i pr.
Proof.
  intros Ht Hic Hpc Hi Hpr. rewrite tax_saving_fraction.
  pose proof (min_nonneg _ _ Hi Hic) as H1.
  pose proof (min_pos _ _ Hpr Hpc) as H2.
  assert (Hc : 0 < / Zc 100) by reflexivity.
  unfold Qcdiv. remember (/ Zc 100) as c eqn:Ec. clear Ec.
  remember (min i (interest_deduction p)) as a1.
  remember (min pr (principal_deduction p)) as b1.
  clear - Ht H1 H2 Hc. qc2q.
  apply Qmult_lt_0_compat; [lra | nra].
Qed.

Lemma powZ_pos (b : Qc) (e : Z) : 0 < b -> 0 < powZ b e.
Proof.
  intro Hb. destruct e as [|k|k]; cbn [powZ].
  - reflexivity.
  - now apply Qcpower_pos_strict.
  - pose proof (Qcpower_pos_strict b (Pos.to_nat k) Hb) as H.
    qc2q. now apply Qinv_lt_0_compat.
Qed.

Lemma div_le_mono (a a' d : Qc) : 0 < d -> a <= a' -> a / d <= a' / d.
Proof.
  intros Hd Ha.
  assert (Hinv : 0 < / d) by (qc2q; now apply Qinv_lt_0_compat).
  unfold Qcdiv. remember (/ d) as v. clear - Ha Hinv. qc2q. nra.
Qed.

Lemma div_lt_mono (a a' d : Qc) : 0 < d -> a < a' -> a / d < a' / d.
Proof.
  intros Hd Ha.
  assert (Hinv : 0 < / d) by (qc2q; now apply Qinv_lt_0_compat).
  unfold Qcdiv. remember (/ d) as v. clear - Ha Hinv. qc2q. nra.
Qed.

Section DiscSum.

Variable rate : Qc.
Hypothesis Hbase : 0 < 1 + rate / Zc 100.
Variables f g : Z -> Qc.

Lemma disc_sum_lt_acc (ys : list Z) :
  (forall y, In y ys -> f y <= g y) ->
  forall i acc acc', acc < acc' ->
    disc_sum rate i (map f ys) acc < disc_sum rate i (map g ys) acc'.
Proof.
  induction ys as [|y ys IH]; intros Hfg i acc acc' Hacc; [exact Hacc|].
  cbn [map disc_sum]. apply IH; [intros; apply Hfg; now right|].
  pose proof (div_le_mono (f y) (g y) (powZ (1 + rate / Zc 100) i)
                (powZ_pos _ i Hbase) (Hfg y (or_introl eq_refl))) as Hd.
  qc2q. lra.
Qed.

Lemma disc_sum_lt (ys : list Z) (y0 : Z) :
  (forall y, In y ys -> f y <= g y) ->
  In y0 ys -> f y0 < g y0 ->
  forall i acc acc', acc <= acc' ->
    disc_sum rate i (map f ys) acc < disc_sum rate i (map g ys) acc'.
Proof.
  induction ys as [|y ys IH]; intros Hfg Hin Hlt i acc acc' Hacc;
    [contradiction|].
  cbn [map disc_sum]. destruct Hin as [->|Hin].
  - apply disc_sum_lt_acc; [intros; apply Hfg; now right|].
    pose proof (div_lt_mono (f y0) (g y0) (powZ (1 + rate / Zc 100) i)
                  (powZ_pos _ i Hbase) Hlt) as Hd.
    qc2q. lra.
  - apply IH; [intros; apply Hfg; now right | exact Hin | exact Hlt |].
    pose proof (div_le_mono (f y) (g y) (powZ (1 + rate / Zc 100) i)
                  (powZ_pos _ i Hbase) (Hfg y (or_introl eq_refl))) as Hd.
    qc2q. lra.
Qed.

End DiscSum.

(** *** The sweep against a full run *)

Lemma buy_series_as_map (p : inputs) (e : Qc) (s : list row) (hg : Qc) :
  (1 <= exit_year p)%Z ->
  buy_series p e s hg =
  upfront p
  :: map (fun y => buy_year p e s y
                   + (if (y =? exit_year p)%Z then resale p hg else 0))
       (range 1 (exit_year p + 1)).
Proof.
  intro H. unfold buy_series. cbn [app]. f_equal.
  rewrite (range_last _ H), map_app. cbn [map]. rewrite Z.eqb_refl. f_equal.
  apply map_ext_in. intros y Hy. apply range_In in Hy.
  replace (y =? exit_year p)%Z with false by (symmetry; apply Z.eqb_neq; lia).
  ring.
Qed.

Lemma cashflow_loop_ext (p : inputs) (e : Qc) (s s' : list row) (rg : Qc)
    (ys : list Z) :
  (forall y, In y ys -> year_rows s y = year_rows s' y) ->
  forall cf_buy cf_rent,
    cashflow_loop p e s rg ys cf_buy cf_rent
    = cashflow_loop p e s' rg ys cf_buy cf_rent.
Proof.
  induction ys as [|y ys IH]; intros Hs cf_buy cf_rent; [reflexivity|].
  cbn [cashflow_loop]. unfold year_sum.
  rewrite (Hs y (or_introl eq_refl)).
  destruct (pow (1 + rg / Zc 100) y); [|reflexivity]. cbn [bind].
  apply IH. intros; apply Hs; now right.
Qed.

(** A sweep point at or below the slider's horizon is a full run. *)
Lemma sweep_within_slider (p : inputs) (y : Z) :
  (y <= exit_year p)%Z ->
  sweep_point p y
  = pipeline (set_exit_year p y) (house_growth p) (rent_growth p).
Proof.
  intro Hy. unfold sweep_point, pipeline.
  change (emi (set_exit_year p y)) with (emi p).
  destruct (emi p) as [e|x]; [|reflexivity]. cbn [bind].
  unfold compute_npv, cashflows.
  rewrite (cashflow_loop_ext _ e (schedule p e)
             (schedule (set_exit_year p y) e)); [reflexivity|].
  intros y0 Hy0. apply range_In in Hy0.
  cbn [exit_year set_exit_year] in Hy0.
  change (schedule p e) with (schedule (set_exit_year p (exit_year p)) e).
  apply year_rows_prefix; lia.
Qed.

Lemma pipeline_value (p : inputs) (hg rg : Qc) :
  0 < r p -> (0 < n p)%Z -> (1 <= exit_year p)%Z ->
  1 + inflation p / Zc 100 <> 0 -> 1 + disc p / Zc 100 <> 0 ->
  let e := annuity (loan_amt p) (r p) (n p) in
  pipeline p hg rg =
  Ok (disc_sum (fisher p) 0 (buy_series p e (schedule p e) hg) 0,
      disc_sum (fisher p) 0 (rent_series p rg) 0).
Proof.
  intros Hr Hn Hy Hi Hd e. unfold pipeline.
  rewrite (emi_ok p Hr Hn). cbn [bind]. now apply compute_npv_ok.
Qed.

Lemma sweep_point_value (p : inputs) (y : Z) :
  0 < r p -> (0 < n p)%Z -> (1 <= y)%Z ->
  1 + inflation p / Zc 100 <> 0 -> 1 + disc p / Zc 100 <> 0 ->
  let e := annuity (loan_amt p) (r p) (n p) in
  let p' := set_exit_year p y in
  sweep_point p y =
  Ok (disc_sum (fisher p) 0
        (buy_series p' e (schedule p e) (house_growth p)) 0,
      disc_sum (fisher p) 0 (rent_series p' (rent_growth p)) 0).
Proof.
  intros Hr Hn Hy Hi Hd e p'. unfold sweep_point.
  rewrite (emi_ok p Hr Hn). cbn [bind].
  exact (compute_npv_ok p' e (schedule p e) _ _ Hy Hi Hd).
Qed.

Lemma year_sum_nonneg (col : row -> Qc) (s : list row) (y : Z) :
  Forall (fun rw => 0 <= col rw) s -> 0 <= year_sum col s y.
Proof.
  intro Hcol. unfold year_sum, year_rows.
  apply sum_nonneg, Forall_map.
  rewrite Forall_forall in Hcol |- *. intros rw Hrw.
  apply filter_In in Hrw. now apply Hcol.
Qed.

Lemma sandwich_le (a x y c : Qc) : x <= y -> a + x + c <= a + y + c.
Proof. intro H. qc2q. lra. Qed.

Lemma sandwich_lt (a x y c : Qc) : x < y -> a + x + c < a + y + c.
Proof. intro H. qc2q. lra. Qed.

(** Two years or more beyond the slider's horizon the sweep misses tax
    savings: its NPV-buy is smaller than that of a full run. *)
Lemma sweep_beyond_slider (p : inputs) (y : Z) :
  0 < loan_amt p -> 0 < r p ->
  (1 <= exit_year p)%Z -> (exit_year p + 2 <= y <= tenure p)%Z ->
  0 < tax_rate p ->
  0 <= interest_deduction p -> 0 < principal_deduction p ->
  0 < 1 + inflation p / Zc 100 -> 0 < 1 + disc p / Zc 100 ->
  exists b b' rr,
    sweep_point p y = Ok (b, rr) /\
    pipeline (set_exit_year p y) (house_growth p) (rent_growth p)
    = Ok (b', rr) /\
    b < b'.
Proof.
  intros HP Hr HE Hy Ht Hic Hpc Hinf Hdisc.
  assert (Hn : (0 < n p)%Z) by (unfold n; lia).
  assert (Hi : 1 + inflation p / Zc 100 <> 0) by (qc2q; lra).
  assert (Hd : 1 + disc p / Zc 100 <> 0) by (qc2q; lra).
  set (e := annuity (loan_amt p) (r p) (n p)).
  set (p' := set_exit_year p y).
  set (s := schedule p e). set (s' := schedule p' e).
  exists (disc_sum (fisher p) 0 (buy_series p' e s (house_growth p)) 0),
    (disc_sum (fisher p) 0 (buy_series p' e s' (house_growth p)) 0),
    (disc_sum (fisher p) 0 (rent_series p' (rent_growth p)) 0).
  split; [apply sweep_point_value; assumption || lia|].
  split; [exact (pipeline_value p' _ _ Hr Hn ltac:(cbn; lia) Hi Hd)|].
  (* the base of the discount factors *)
  assert (Hbase : 0 < 1 + fisher p / Zc 100).
  { unfold fisher.
    remember (1 + inflation p / Zc 100) as a eqn:Ea.
    remember (1 + disc p / Zc 100) as c eqn:Ec.
    replace (1 + (c / a - 1) * Zc 100 / Zc 100) with (c * / a)
      by (field; split; [exact Hi | apply Zc_100_nonzero]).
    clear - Hinf Hdisc. qc2q. apply Qmult_lt_0_compat; [exact Hdisc|].
    now apply Qinv_lt_0_compat. }
  (* the columns of the recomputed schedule *)
  assert (Hsigns : forall rw, In rw s' ->
            0 <= Interest rw /\ 0 < Principal rw).
  { apply (schedule_signs p y HP Hr Hn). unfold n. lia. }
  assert (HI : Forall (fun rw => 0 <= Interest rw) s')
    by (apply Forall_forall; intros rw Hrw; now apply Hsigns).
  assert (HPr : Forall (fun rw => 0 <= Principal rw) s').
  { apply Forall_forall. intros rw Hrw. apply Qclt_le_weak.
    now apply Hsigns. }
  assert (Hsum : forall col y0,
            Forall (fun rw => 0 <= col rw) s' ->
            year_sum col s y0 <= year_sum col s' y0).
  { intros col y0 Hcol.
    apply (year_sum_le p e col (exit_year p) y y0); [lia | exact Hcol]. }
  rewrite !buy_series_as_map by (cbn; lia). cbn [disc_sum].
  apply (disc_sum_lt (fisher p) Hbase _ _ _ (exit_year p + 2)%Z).
  - intros y0 _. unfold buy_year. apply sandwich_le.
    exact (tax_saving_mono p' _ _ _ _ (Qclt_le_weak _ _ Ht)
             (Hsum Interest y0 HI) (Hsum Principal y0 HPr)).
  - apply range_In. cbn [exit_year set_exit_year p']. lia.
  - unfold buy_year, year_sum. apply sandwich_lt.
    replace (year_rows s (exit_year p + 2)) with (@nil row)
      by (symmetry; apply (year_rows_beyond p e (exit_year p)); lia).
    cbn [map]. change (sum []) with 0.
    rewrite (tax_saving_zero p' Hic (Qclt_le_weak _ _ Hpc)).
    apply tax_saving_pos; try assumption.
    + exact (year_sum_nonneg Interest s' _ HI).
    + apply (year_sum_pos p e Principal y (exit_year p + 2));
        [lia | exact HPr|].
      intros rw Hrw. exact (proj2 (Hsigns rw Hrw)).
  - apply Qcle_refl.
Qed.

(** C3.  The default sidebar with the slider at 3 years; the sweep reaches
    the horizon 5.  [sched] still holds the 36 rows computed for the slider:
    the filter of year 5 finds no row where a schedule recomputed to 60
    months has thirteen, the tax saving of that year is lost, and the
    NPV-buy of the sweep is smaller than that of a full run at horizon 5. *)
Theorem sweep_reuses_stale_schedule :
  let p := set_exit_year defaults 3 in
  In 5%Z years /\
  (forall e,
     length (schedule p e) = 36%nat /\
     length (year_rows (schedule p e) 5) = 0%nat /\
     length (year_rows (schedule (set_exit_year p 5) e) 5) = 13%nat) /\
  exists b b' rr,
    sweep_point p 5 = Ok (b, rr) /\
    pipeline (set_exit_year p 5) (house_growth p) (rent_growth p)
    = Ok (b', rr) /\
    b < b'.
Proof.
  intro p. split; [|split].
  - apply range_In. split; [discriminate | reflexivity].
  - intro e. split; [|split]; lazy; reflexivity.
  - apply sweep_beyond_slider; try qc_compute.
    + discriminate.
    + split; discriminate.
Qed.

(** * Further properties of the script *)

(** ** The amortization schedule: closed form, pay-off, totals *)

Lemma Qcpower_lt_mono (b : Qc) (j k : nat) :
  1 < b -> (j < k)%nat -> b ^ j < b ^ k.
Proof.
  intros Hb Hjk.
  assert (Hj : 0 < b ^ j) by (apply Qcpower_pos_strict; qc2q; lra).
  assert (Hs : b ^ S j <= b ^ k)
    by (apply Qcpower_le_mono; [qc2q; lra | lia]).
  cbn [Qcpower] in Hs. qc2q. nra.
Qed.

Lemma schedule_loop_balance (p : inputs) (e : Qc) (ms : list Z) :
  forall (b : Qc) (j : nat) (rw : row),
    nth_error (schedule_loop p e ms b) j = Some rw ->
    e - Balance rw * r p = (e - b * r p) * (1 + r p) ^ S j.
Proof.
  induction ms as [|m ms IH]; intros b j rw Hj.
  - destruct j; discriminate.
  - destruct j as [|j]; cbn [schedule_loop nth_error] in Hj.
    + injection Hj as <-. cbn. ring.
    + rewrite (IH _ _ _ Hj). cbn [Qcpower]. ring.
Qed.

(** With the EMI of the annuity formula, [balance_m * r] is
    [c * ((1+r)^N - (1+r)^m)] for [c = P*r / ((1+r)^N - 1)]. *)
Lemma balance_times_rate (p : inputs) (m : Z) :
  0 < r p -> (0 < n p)%Z -> (1 <= m <= exit_year p * 12)%Z ->
  balance_at p (annuity (loan_amt p) (r p) (n p)) m * r p =
  loan_amt p * r p / (powZ (1 + r p) (n p) - 1)
  * (powZ (1 + r p) (n p) - powZ (1 + r p) m).
Proof.
  intros Hr Hn Hm. set (e := annuity (loan_amt p) (r p) (n p)).
  destruct (schedule_row p e m Hm) as (rw & Hnth & _ & _ & _ & _ & _ & Ha).
  pose proof (schedule_loop_balance _ _ _ _ _ _ Hnth) as Hb.
  assert (Hg : 1 < powZ (1 + r p) (n p))
    by (apply powZ_gt1; [qc2q; lra | exact Hn]).
  assert (Hd : powZ (1 + r p) (n p) - 1 <> 0) by (qc2q; lra).
  destruct (annuity_split (loan_amt p) (r p) (n p) Hd) as [Hc He].
  fold e in Hc, He.
  replace (S (Z.to_nat (m - 1))) with (Z.to_nat m) in Hb by lia.
  rewrite <- powZ_of_nat in Hb. replace (Z.of_nat (Z.to_nat m)) with m in Hb
    by lia.
  rewrite Ha. rewrite Hc in Hb.
  transitivity (e - (e - Balance rw * r p)); [ring|].
  rewrite Hb. rewrite He at 1. ring.
Qed.

Lemma powZ_lt_mono (b : Qc) (j k : Z) :
  1 < b -> (0 <= j < k)%Z -> powZ b j < powZ b k.
Proof.
  intros Hb H.
  replace j with (Z.of_nat (Z.to_nat j)) by lia.
  replace k with (Z.of_nat (Z.to_nat k)) by lia.
  rewrite !powZ_of_nat. apply Qcpower_lt_mono; [exact Hb | lia].
Qed.

Lemma annuity_factor_pos (P i : Qc) (N : Z) :
  0 < P -> 0 < i -> (0 < N)%Z -> 0 < P * i / (powZ (1 + i) N - 1).
Proof.
  intros HP Hi HN.
  assert (Hg : 1 < powZ (1 + i) N) by (apply powZ_gt1; [qc2q; lra | exact HN]).
  qc2q. apply Qmult_lt_0_compat; [nra|]. apply Qinv_lt_0_compat. lra.
Qed.

Lemma sign_of_product (c d x rr : Qc) :
  0 < c -> 0 < rr -> x * rr = c * d ->
  (0 < d -> 0 < x) /\ (d = 0 -> x = 0) /\ (d < 0 -> x < 0).
Proof.
  intros Hc Hr E. repeat split; intro Hd; qc2q; nra.
Qed.

(** X1.  With a positive loan, rate and tenure, the balance after month [m]
    is positive before the last month of the tenure, exactly zero at the
    last month, and negative for every month the schedule runs beyond the
    tenure (the loop keeps paying the EMI). *)
Theorem balance_sign_by_tenure (p : inputs) (m : Z) :
  0 < loan_amt p -> 0 < r p -> (0 < n p)%Z ->
  (1 <= m <= exit_year p * 12)%Z ->
  exists e,
    emi p = Ok e /\
    ((m < n p)%Z -> 0 < balance_at p e m) /\
    (m = n p -> balance_at p e m = 0) /\
    ((n p < m)%Z -> balance_at p e m < 0).
Proof.
  intros HP Hr Hn Hm. exists (annuity (loan_amt p) (r p) (n p)).
  split; [apply emi_ok; assumption|].
  pose proof (balance_times_rate p m Hr Hn Hm) as E.
  pose proof (annuity_factor_pos _ _ _ HP Hr Hn) as Hc.
  destruct (sign_of_product _ _ _ _ Hc Hr E) as (H1 & H2 & H3).
  assert (Hb : 1 < 1 + r p) by (qc2q; lra).
  split; [|split].
  - intro Hlt. apply H1.
    pose proof (powZ_lt_mono (1 + r p) m (n p) Hb ltac:(lia)) as Hp.
    qc2q. lra.
  - intro Heq. apply H2. rewrite Heq. ring.
  - intro Hgt. apply H3.
    pose proof (powZ_lt_mono (1 + r p) (n p) m Hb ltac:(lia)) as Hp.
    qc2q. lra.
Qed.

Lemma balance_sign_by_tenure_witness :
  (0 < loan_amt (set_tenure defaults 5) /\ 0 < r (set_tenure defaults 5) /\
   (0 < n (set_tenure defaults 5))%Z /\
   (1 <= 60 <= exit_year (set_tenure defaults 5) * 12)%Z) /\
  exists e,
    emi (set_tenure defaults 5) = Ok e /\
    balance_at (set_tenure defaults 5) e 60 = 0.
Proof.
  assert (HP : 0 < loan_amt (set_tenure defaults 5)) by qc_compute.
  assert (Hr : 0 < r (set_tenure defaults 5)) by qc_compute.
  assert (Hn : (0 < n (set_tenure defaults 5))%Z) by reflexivity.
  assert (Hm : (1 <= 60 <= exit_year (set_tenure defaults 5) * 12)%Z)
    by (split; discriminate).
  split; [repeat split; assumption || discriminate|].
  destruct (balance_sign_by_tenure (set_tenure defaults 5) 60 HP Hr Hn Hm)
    as (e & He & _ & H0 & _).
  exists e. split; [exact He | exact (H0 eq_refl)].
Defined.

(** X2.  From one month to the next the principal part of the EMI grows
    by the factor [1 + r], and the interest part shrinks by the same
    amount, whatever the value of the global [emi]. *)
Theorem principal_grows_by_rate (p : inputs) (e : Qc) (m : Z) :
  (2 <= m <= exit_year p * 12)%Z ->
  exists rw rw',
    nth_error (schedule p e) (Z.to_nat (m - 2)) = Some rw /\
    nth_error (schedule p e) (Z.to_nat (m - 1)) = Some rw' /\
    Principal rw' = (1 + r p) * Principal rw /\
    Interest rw' = Interest rw - r p * Principal rw.
Proof.
  intro Hm.
  destruct (schedule_row p e (m - 1)) as (rw & Hn & _ & _ & Hp & _); [lia|].
  destruct (schedule_row p e m) as (rw' & Hn' & _ & _ & Hp' & _); [lia|].
  replace (m - 1 - 1)%Z with (m - 2)%Z in Hn by lia.
  exists rw, rw'. split; [exact Hn|]. split; [exact Hn'|].
  pose proof (schedule_loop_principal _ _ _ _ _ _ Hn) as Hc.
  pose proof (schedule_loop_principal _ _ _ _ _ _ Hn') as Hc'.
  replace (Z.to_nat (m - 1)) with (S (Z.to_nat (m - 2))) in Hc' by lia.
  cbn [Qcpower] in Hc'.
  assert (Hpp : Principal rw' = (1 + r p) * Principal rw)
    by (rewrite Hc, Hc'; ring).
  split; [exact Hpp|].
  assert (Hi : Interest rw = e - Principal rw) by (rewrite Hp; ring).
  assert (Hi' : Interest rw' = e - Principal rw') by (rewrite Hp'; ring).
  rewrite Hi, Hi', Hpp. ring.
Qed.

Lemma principal_grows_by_rate_witness :
  (2 <= 2 <= exit_year defaults * 12)%Z /\
  exists rw rw',
    nth_error (schedule defaults (Zc 55540)) 0 = Some rw /\
    nth_error (schedule defaults (Zc 55540)) 1 = Some rw' /\
    Principal rw' = (1 + r defaults) * Principal rw.
Proof.
  assert (H : (2 <= 2 <= exit_year defaults * 12)%Z) by (split; discriminate).
  split; [exact H|].
  destruct (principal_grows_by_rate defaults (Zc 55540) 2 H)
    as (rw & rw' & H1 & H2 & H3 & _).
  exists rw, rw'. split; [exact H1|]. split; [exact H2 | exact H3].
Defined.

Lemma schedule_loop_totals (p : inputs) (e : Qc) (ms : list Z) (b : Qc) :
  sum (map Principal (schedule_loop p e ms b)) = b - end_balance p e ms b /\
  sum (map (fun rw => Interest rw + Principal rw) (schedule_loop p e ms b))
  = Zc (Z.of_nat (length ms)) * e.
Proof.
  revert b. induction ms as [|m ms IH]; intro b.
  - cbn [schedule_loop map end_balance length Z.of_nat].
    split; [unfold sum; cbn; ring|].
    replace (Zc 0) with 0 by (apply Qc_is_canon; reflexivity).
    unfold sum; cbn; ring.
  - cbn [schedule_loop map end_balance]. rewrite !sum_cons.
    destruct (IH (b - (e - b * r p))) as [H1 H2]. rewrite H1, H2.
    cbn [Principal Interest]. split; [ring|].
    replace (Z.of_nat (length (m :: ms))) with (1 + Z.of_nat (length ms))%Z
      by (cbn [length]; lia).
    assert (Hadd : Zc (1 + Z.of_nat (length ms))
                   = 1 + Zc (Z.of_nat (length ms))).
    { apply Qc_is_canon. unfold Zc. cbn [this Qcplus Q2Qc].
      rewrite !Qred_correct, inject_Z_plus. reflexivity. }
    rewrite Hadd. ring.
Qed.

Lemma balance_before_end (p : inputs) (e : Qc) (ms : list Z) :
  forall b,
    balance_before (schedule_loop p e ms b) b (length ms)
    = end_balance p e ms b.
Proof.
  induction ms as [|m ms IH]; intro b; [reflexivity|].
  cbn [length schedule_loop end_balance].
  specialize (IH (b - (e - b * r p))).
  destruct ms as [|m' ms]; [reflexivity|].
  cbn [length] in IH |- *. cbn [balance_before nth_error] in IH |- *.
  destruct (nth_error _ (length ms)) as [rw|] eqn:Hrw; [exact IH|].
  apply nth_error_None in Hrw. rewrite schedule_loop_length in Hrw.
  cbn [length] in Hrw. lia.
Qed.

(** X3.  Over the whole schedule the principal parts add up to the loan
    amount less the final balance, and interest and principal together to
    one EMI per month. *)
Theorem schedule_totals (p : inputs) (e : Qc) :
  (0 <= exit_year p)%Z ->
  sum (map Principal (schedule p e))
  = loan_amt p - balance_at p e (exit_year p * 12) /\
  sum (map Interest (schedule p e)) + sum (map Principal (schedule p e))
  = Zc (exit_year p * 12) * e.
Proof.
  intro H. unfold balance_at, schedule.
  destruct (schedule_loop_totals p e (range 1 (exit_year p * 12 + 1))
              (loan_amt p)) as [H1 H2].
  assert (Hlen : length (range 1 (exit_year p * 12 + 1))
                 = Z.to_nat (exit_year p * 12))
    by (rewrite range_length; f_equal; lia).
  split.
  - rewrite H1, <- Hlen, balance_before_end. reflexivity.
  - rewrite Hlen in H2. replace (Z.of_nat (Z.to_nat (exit_year p * 12)))
      with (exit_year p * 12)%Z in H2 by lia.
    rewrite <- H2.
    generalize (schedule_loop p e (range 1 (exit_year p * 12 + 1))
                  (loan_amt p)).
    intro l. induction l as [|rw l IH]; [unfold sum; cbn; ring|].
    cbn [map]. rewrite !sum_cons, <- IH. ring.
Qed.

Lemma schedule_totals_witness :
  (0 <= exit_year defaults)%Z /\
  sum (map Interest (schedule defaults (Zc 55540)))
  + sum (map Principal (schedule defaults (Zc 55540)))
  = Zc 120 * Zc 55540.
Proof.
  assert (H : (0 <= exit_year defaults)%Z) by discriminate.
  split; [exact H|].
  exact (proj2 (schedule_totals defaults (Zc 55540) H)).
Defined.

(** X4.  The schedule has twelve rows per year of the horizon, and the
    schedule to a shorter horizon is the beginning of the schedule to a
    longer one: the horizon cuts the table, it does not change a row. *)
Theorem schedule_truncation (p : inputs) (e : Qc) (H1 H2 : Z) :
  (0 <= H1 <= H2)%Z ->
  length (schedule (set_exit_year p H1) e) = Z.to_nat (H1 * 12) /\
  schedule (set_exit_year p H1) e
  = firstn (Z.to_nat (H1 * 12)) (schedule (set_exit_year p H2) e).
Proof.
  intro H.
  assert (Hlen : length (schedule (set_exit_year p H1) e)
                 = Z.to_nat (H1 * 12))
    by apply (schedule_length (set_exit_year p H1) e).
  split; [exact Hlen|].
  rewrite (schedule_extends p e H1 H2 H), <- Hlen.
  rewrite firstn_app, Nat.sub_diag, firstn_all. cbn [firstn].
  now rewrite app_nil_r.
Qed.

Lemma schedule_truncation_witness :
  (0 <= 3 <= 10)%Z /\
  schedule (set_exit_year defaults 3) (Zc 55540)
  = firstn 36 (schedule (set_exit_year defaults 10) (Zc 55540)).
Proof.
  assert (H : (0 <= 3 <= 10)%Z) by (split; discriminate).
  split; [exact H|].
  exact (proj2 (schedule_truncation defaults (Zc 55540) 3 10 H)).
Defined.

Lemma equity_bound (pr d e bal i g P : Qc) :
  P = pr * (1 - d) -> 0 < i -> 0 <= e - P * i -> 1 <= g ->
  e - bal * i = (e - P * i) * g ->
  pr * d <= pr - bal.
Proof. intros HP Hi Hc Hg Hb. qc2q. nra. Qed.

(** X5.  With a positive loan, rate and tenure the equity of every row is
    at least the down payment. *)
Theorem equity_at_least_down_payment (p : inputs) :
  0 < loan_amt p -> 0 < r p -> (0 < n p)%Z ->
  exists e,
    emi p = Ok e /\
    Forall (fun rw => price p * down_pct p <= Equity rw) (schedule p e).
Proof.
  intros HP Hr Hn. exists (annuity (loan_amt p) (r p) (n p)).
  split; [apply emi_ok; assumption|].
  apply Forall_forall. intros rw Hin.
  apply In_nth_error in Hin. destruct Hin as [j Hj].
  pose proof (schedule_loop_balance _ _ _ _ _ _ Hj) as Hb.
  destruct (schedule_loop_row _ _ _ _ _ _ Hj) as (_ & _ & _ & He & _).
  rewrite He.
  apply (equity_bound (price p) (down_pct p)
           (annuity (loan_amt p) (r p) (n p)) (Balance rw) (r p)
           ((1 + r p) ^ S j) (loan_amt p)).
  - reflexivity.
  - exact Hr.
  - exact (annuity_covers_interest _ _ _ (Qclt_le_weak _ _ HP) Hr Hn).
  - apply Qcpower_ge1. qc2q. lra.
  - exact Hb.
Qed.

Lemma equity_at_least_down_payment_witness :
  (0 < loan_amt defaults /\ 0 < r defaults /\ (0 < n defaults)%Z) /\
  exists e,
    emi defaults = Ok e /\
    Forall (fun rw => price defaults * down_pct defaults <= Equity rw)
      (schedule defaults e).
Proof.
  assert (HP : 0 < loan_amt defaults) by qc_compute.
  assert (Hr : 0 < r defaults) by qc_compute.
  assert (Hn : (0 < n defaults)%Z) by reflexivity.
  split; [repeat split; assumption|].
  exact (equity_at_least_down_payment defaults HP Hr Hn).
Defined.

(** ** Tax benefit: bounds *)

(** X6.  For non-negative interest, principal, tax rate and caps, the tax
    saving lies between 0 and [(interest_cap + principal_cap) * tax_rate/100],
    and it does not decrease when the interest or the principal paid
    grows. *)
Theorem tax_saving_bounds (p : inputs) (interest principal : Qc) :
  0 <= interest -> 0 <= principal -> 0 <= tax_rate p ->
  0 <= interest_deduction p -> 0 <= principal_deduction p ->
  0 <= tax_saving p interest principal /\
  tax_saving p interest principal
  <= (interest_deduction p + principal_deduction p) * (tax_rate p / Zc 100) /\
  (forall interest' principal',
     interest <= interest' -> principal <= principal' ->
     tax_saving p interest principal <= tax_saving p interest' principal').
Proof.
  intros Hi Hp Ht Hic Hpc.
  pose proof (min_nonneg _ _ Hi Hic) as H1.
  pose proof (min_nonneg _ _ Hp Hpc) as H2.
  destruct (min_least interest (interest_deduction p)) as (_ & H3 & _).
  destruct (min_least principal (principal_deduction p)) as (_ & H4 & _).
  assert (Hc : 0 < / Zc 100) by reflexivity.
  split; [|split].
  - rewrite tax_saving_fraction. unfold Qcdiv.
    remember (/ Zc 100) as c eqn:Ec.
    remember (min interest (interest_deduction p)) as a.
    remember (min principal (principal_deduction p)) as b.
    clear - Ht H1 H2 Hc. qc2q. apply Qmult_le_0_compat; [lra | nra].
  - rewrite tax_saving_fraction. unfold Qcdiv.
    remember (/ Zc 100) as c eqn:Ec.
    remember (min interest (interest_deduction p)) as a.
    remember (min principal (principal_deduction p)) as b.
    clear - Ht H3 H4 Hc. qc2q.
    assert (Htc : (0 <= tax_rate p * c)%Q) by nra.
    rewrite !(Qmult_comm _ (tax_rate p * c)).
    apply Qmult_le_l_weak; [exact Htc | lra].
  - intros i' pr' Hi' Hp'. now apply tax_saving_mono.
Qed.

Lemma tax_saving_bounds_witness :
  (0 <= Zc 120000 /\ 0 <= Zc 400000 /\ 0 <= tax_rate defaults /\
   0 <= interest_deduction defaults /\ 0 <= principal_deduction defaults) /\
  0 <= tax_saving defaults (Zc 120000) (Zc 400000) /\
  tax_saving defaults (Zc 120000) (Zc 400000) <= Zc 105000.
Proof.
  assert (H1 : 0 <= Zc 120000) by qc_compute.
  assert (H2 : 0 <= Zc 400000) by qc_compute.
  assert (H3 : 0 <= tax_rate defaults) by qc_compute.
  assert (H4 : 0 <= interest_deduction defaults) by qc_compute.
  assert (H5 : 0 <= principal_deduction defaults) by qc_compute.
  split; [repeat split; assumption|].
  destruct (tax_saving_bounds defaults (Zc 120000) (Zc 400000) H1 H2 H3 H4 H5)
    as (Hlo & Hhi & _).
  split; [exact Hlo|].
  replace (Zc 105000)
    with ((interest_deduction defaults + principal_deduction defaults)
          * (tax_rate defaults / Zc 100)) by qc_compute.
  exact Hhi.
Defined.

(** ** NPV: edge cases, scaling, zero real rate *)

Lemma powZ_one (i : Z) : powZ 1 i = 1.
Proof.
  destruct i as [|k|k]; cbn [powZ]; rewrite ?Qcpower_1; reflexivity.
Qed.

Lemma div_by_one (c : Qc) : c / 1 = c.
Proof. field. discriminate. Qed.



Lemma npv_from_scale (rate k : Qc) (cfs : list Qc) :
  forall i acc v,
    npv_from rate i cfs acc = Ok v ->
    npv_from rate i (map (Qcmult k) cfs) (k * acc) = Ok (k * v).
Proof.
  induction cfs as [|cf cfs IH]; intros i acc v H.
  - cbn in H |- *. injection H as <-. reflexivity.
  - cbn [npv_from map] in H |- *.
    destruct (pow (1 + rate / Zc 100) i) as [d|x]; [|discriminate].
    cbn [bind] in H |- *. unfold div in H |- *.
    destruct (eqb d 0); [discriminate|]. cbn [bind] in H |- *.
    replace (k * acc + k * cf / d) with (k * (acc + cf / d))
      by (unfold Qcdiv; ring).
    now apply IH.
Qed.

(** X8.  Scaling every cash flow by [k] scales the NPV by [k]. *)
Theorem npv_scales (rate k : Qc) (cfs : list Qc) (v : Qc) :
  npv rate cfs = Ok v -> npv rate (map (Qcmult k) cfs) = Ok (k * v).
Proof.
  intro H. unfold npv in *.
  replace 0 with (k * 0) by ring. now apply npv_from_scale.
Qed.

Lemma npv_scales_witness :
  npv (Zc 10) [Zc 100; Zc 110] = Ok (Zc 200) /\
  npv (Zc 10) (map (Qcmult (Zc 3)) [Zc 100; Zc 110]) = Ok (Zc 3 * Zc 200).
Proof.
  assert (H : npv (Zc 10) [Zc 100; Zc 110] = Ok (Zc 200)).
  { unfold npv. rewrite npv_from_ok by qc_compute. f_equal; qc_compute. }
  split; [exact H|].
  exact (npv_scales (Zc 10) (Zc 3) [Zc 100; Zc 110] (Zc 200) H).
Defined.

Lemma disc_sum_zero_rate (cfs : list Qc) :
  forall i acc, disc_sum 0 i cfs acc = acc + sum cfs.
Proof.
  assert (Hb : 1 + 0 / Zc 100 = 1) by qc_compute.
  induction cfs as [|cf cfs IH]; intros i acc.
  - cbn. unfold sum. cbn. ring.
  - cbn [disc_sum]. rewrite IH, Hb, powZ_one, div_by_one, sum_cons. ring.
Qed.

(** X9.  When the discount rate equals the inflation rate the real rate is
    0 and [compute_npv] returns the plain sums of its two cash-flow
    lists. *)
Theorem compute_npv_undiscounted (p : inputs) (e : Qc) (sched : list row)
    (hg rg : Qc) :
  (1 <= exit_year p)%Z -> disc p = inflation p ->
  1 + inflation p / Zc 100 <> 0 ->
  real_disc p = Ok 0 /\
  exists cf_buy cf_rent,
    cashflows p e sched hg rg = Ok (cf_buy, cf_rent) /\
    compute_npv p e sched hg rg = Ok (sum cf_buy, sum cf_rent).
Proof.
  intros Hy Hdi Hi.
  assert (Hf : fisher p = 0).
  { unfold fisher. rewrite Hdi.
    remember (1 + inflation p / Zc 100) as a eqn:Ea. field. exact Hi. }
  split; [rewrite real_disc_ok, Hf by exact Hi; reflexivity|].
  exists (buy_series p e sched hg), (rent_series p rg).
  split; [now apply cashflows_ok|].
  rewrite compute_npv_ok; [| exact Hy | exact Hi | rewrite Hdi; exact Hi].
  rewrite Hf, !disc_sum_zero_rate. f_equal. f_equal; ring.
Qed.

Lemma compute_npv_undiscounted_witness :
  let p := set_inflation defaults (Zc 8) in
  ((1 <= exit_year p)%Z /\ disc p = inflation p /\
   1 + inflation p / Zc 100 <> 0) /\
  real_disc p = Ok 0.
Proof.
  intro p.
  assert (H1 : (1 <= exit_year p)%Z) by discriminate.
  assert (H2 : disc p = inflation p) by reflexivity.
  assert (H3 : 1 + inflation p / Zc 100 <> 0) by qc_compute.
  split; [repeat split; assumption|].
  exact (proj1 (compute_npv_undiscounted p (Zc 55540) [] (Zc 5) (Zc 5)
                  H1 H2 H3)).
Defined.

(** X10.  Whenever the real discount rate is computed it satisfies Fisher's
    equation [(1 + real)(1 + inflation) = 1 + nominal]; it fails, with
    [ZeroDivisionError], exactly for an inflation of -100%. *)
Theorem real_disc_fisher (p : inputs) :
  (forall rd, real_disc p = Ok rd ->
     (1 + rd / Zc 100) * (1 + inflation p / Zc 100) = 1 + disc p / Zc 100) /\
  (real_disc p = Raise ZeroDivisionError <-> 1 + inflation p / Zc 100 = 0) /\
  (forall x, real_disc p = Raise x -> x = ZeroDivisionError).
Proof.
  unfold real_disc, div.
  destruct (eqb (1 + inflation p / Zc 100) 0) eqn:E; cbn [bind].
  - apply eqb_eq in E. split; [discriminate|]. split.
    + tauto.
    + intros x H. now injection H as <-.
  - apply eqb_neq in E. split; [|split].
    + intros rd H. injection H as <-.
      remember (1 + inflation p / Zc 100) as a eqn:Ea.
      remember (1 + disc p / Zc 100) as c eqn:Ec.
      field. split; [exact E | apply Zc_100_nonzero].
    + split; [discriminate | tauto].
    + discriminate.
Qed.

Lemma real_disc_fisher_witness :
  exists rd,
    real_disc defaults = Ok rd /\
    (1 + rd / Zc 100) * (1 + inflation defaults / Zc 100)
    = 1 + disc defaults / Zc 100.
Proof.
  exists (fisher defaults).
  assert (H : real_disc defaults = Ok (fisher defaults))
    by (apply real_disc_ok; qc_compute).
  split; [exact H|].
  exact (proj1 (real_disc_fisher defaults) _ H).
Defined.

(** ** Growth rates and the two NPVs *)

Lemma Qcpower_base_mono (a b : Qc) (k : nat) :
  0 <= a -> a <= b -> a ^ k <= b ^ k.
Proof.
  intros Ha Hab. induction k as [|k IH]; cbn [Qcpower]; [apply Qcle_refl|].
  assert (Hk : 0 <= a ^ k) by now apply Qcpower_pos.
  qc2q. nra.
Qed.

Lemma powZ_base_mono (a b : Qc) (e : Z) :
  (0 <= e)%Z -> 0 <= a -> a <= b -> powZ a e <= powZ b e.
Proof.
  intros He Ha Hab. replace e with (Z.of_nat (Z.to_nat e)) by lia.
  rewrite !powZ_of_nat. now apply Qcpower_base_mono.
Qed.

Lemma growth_base_mono (g g' : Qc) :
  g <= g' -> 1 + g / Zc 100 <= 1 + g' / Zc 100.
Proof.
  intro H. assert (Hc : 0 < / Zc 100) by reflexivity.
  unfold Qcdiv. remember (/ Zc 100) as c. clear - H Hc. qc2q. nra.
Qed.

Lemma resale_mono (p : inputs) (hg hg' : Qc) :
  (0 <= exit_year p)%Z -> 0 <= price p -> sell_commission p <= Zc 100 ->
  0 <= 1 + hg / Zc 100 -> hg <= hg' ->
  resale p hg <= resale p hg'.
Proof.
  intros Hy Hp Hs Hb Hg. unfold resale.
  pose proof (powZ_base_mono _ _ _ Hy Hb (growth_base_mono _ _ Hg)) as Hpow.
  assert (Hk : 0 <= 1 - sell_commission p / Zc 100).
  { replace (1 - sell_commission p / Zc 100)
      with ((Zc 100 - sell_commission p) * / Zc 100)
      by (field; apply Zc_100_nonzero).
    assert (Hc : 0 < / Zc 100) by reflexivity.
    remember (/ Zc 100) as c. remember (Zc 100) as h.
    clear - Hs Hc. qc2q. nra. }
  remember (powZ (1 + hg / Zc 100) (exit_year p)) as a.
  remember (powZ (1 + hg' / Zc 100) (exit_year p)) as b.
  remember (1 - sell_commission p / Zc 100) as k.
  clear - Hp Hpow Hk. qc2q.
  assert (H1 : (price p * a <= price p * b)%Q) by nra. nra.
Qed.

Lemma rent_year_antitone (p : inputs) (rg rg' : Qc) (y : Z) :
  (0 <= y)%Z -> 0 <= rent0 p -> 0 <= 1 + rg / Zc 100 -> rg <= rg' ->
  rent_year p rg' y <= rent_year p rg y.
Proof.
  intros Hy Hr Hb Hg. unfold rent_year.
  pose proof (powZ_base_mono _ _ _ Hy Hb (growth_base_mono _ _ Hg)) as Hpow.
  assert (H12 : 0 < Zc 12) by reflexivity.
  remember (powZ (1 + rg / Zc 100) y) as a.
  remember (powZ (1 + rg' / Zc 100) y) as b.
  remember (Zc 12) as c.
  clear - Hr Hpow H12. qc2q.
  assert (H1 : (rent0 p * a <= rent0 p * b)%Q) by nra. nra.
Qed.

Lemma rent_series_as_map (p : inputs) (rg : Qc) :
  (1 <= exit_year p)%Z ->
  rent_series p rg =
  map (fun y => rent_year p rg y
                + (if (y =? exit_year p)%Z then invest p else 0))
    (range 1 (exit_year p + 1)).
Proof.
  intro H. unfold rent_series.
  rewrite (range_last _ H), map_app. cbn [map]. rewrite Z.eqb_refl. f_equal.
  apply map_ext_in. intros y Hy. apply range_In in Hy.
  replace (y =? exit_year p)%Z with false by (symmetry; apply Z.eqb_neq; lia).
  ring.
Qed.

Lemma disc_sum_mono (rate : Qc) (f g : Z -> Qc) (ys : list Z) :
  0 < 1 + rate / Zc 100 ->
  (forall y, In y ys -> f y <= g y) ->
  forall i acc acc', acc <= acc' ->
    disc_sum rate i (map f ys) acc <= disc_sum rate i (map g ys) acc'.
Proof.
  intro Hbase.
  induction ys as [|y ys IH]; intros Hfg i acc acc' Hacc; [exact Hacc|].
  cbn [map disc_sum]. apply IH; [intros; apply Hfg; now right|].
  pose proof (div_le_mono (f y) (g y) (powZ (1 + rate / Zc 100) i)
                (powZ_pos _ i Hbase) (Hfg y (or_introl eq_refl))) as Hd.
  qc2q. lra.
Qed.

Lemma fisher_base_pos (p : inputs) :
  0 < 1 + inflation p / Zc 100 -> 0 < 1 + disc p / Zc 100 ->
  0 < 1 + fisher p / Zc 100.
Proof.
  intros Hinf Hdisc. unfold fisher.
  assert (Hi : 1 + inflation p / Zc 100 <> 0) by (qc2q; lra).
  remember (1 + inflation p / Zc 100) as a eqn:Ea.
  remember (1 + disc p / Zc 100) as c eqn:Ec.
  replace (1 + (c / a - 1) * Zc 100 / Zc 100) with (c * / a)
    by (field; split; [exact Hi | apply Zc_100_nonzero]).
  clear - Hinf Hdisc. qc2q. apply Qmult_lt_0_compat; [exact Hdisc|].
  now apply Qinv_lt_0_compat.
Qed.

Lemma sandwich_le_r (a x y : Qc) : x <= y -> a + x <= a + y.
Proof. intro H. qc2q. lra. Qed.

Lemma npv_buy_mono (p : inputs) (e : Qc) (s : list row) (hg hg' : Qc) :
  (1 <= exit_year p)%Z -> 0 <= price p -> sell_commission p <= Zc 100 ->
  0 <= 1 + hg / Zc 100 -> hg <= hg' ->
  0 < 1 + fisher p / Zc 100 ->
  disc_sum (fisher p) 0 (buy_series p e s hg) 0
  <= disc_sum (fisher p) 0 (buy_series p e s hg') 0.
Proof.
  intros Hy Hp Hs Hb Hg Hbase.
  rewrite !buy_series_as_map by exact Hy. cbn [disc_sum].
  apply disc_sum_mono; [exact Hbase | | apply Qcle_refl].
  intros y _. apply sandwich_le_r.
  destruct (y =? exit_year p)%Z; [|apply Qcle_refl].
  apply resale_mono; assumption || lia.
Qed.

Lemma npv_rent_antitone (p : inputs) (rg rg' : Qc) :
  (1 <= exit_year p)%Z -> 0 <= rent0 p ->
  0 <= 1 + rg / Zc 100 -> rg <= rg' ->
  0 < 1 + fisher p / Zc 100 ->
  disc_sum (fisher p) 0 (rent_series p rg') 0
  <= disc_sum (fisher p) 0 (rent_series p rg) 0.
Proof.
  intros Hy Hr Hb Hg Hbase.
  rewrite !rent_series_as_map by exact Hy.
  apply disc_sum_mono; [exact Hbase | | apply Qcle_refl].
  intros y Hin. apply range_In in Hin.
  pose proof (rent_year_antitone p rg rg' y ltac:(lia) Hr Hb Hg) as H.
  remember (if (y =? exit_year p)%Z then invest p else 0) as c.
  remember (rent_year p rg y) as a. remember (rent_year p rg' y) as b.
  clear - H. qc2q. lra.
Qed.

(** X11.  For a non-negative price and rent, a selling commission of at
    most 100%, non-negative growth factors and positive discount and
    inflation factors: a larger house growth does not lower NPV-buy, a
    larger rent growth does not raise NPV-rent, and neither NPV depends on
    the other growth rate. *)
Theorem compute_npv_monotone (p : inputs) (e : Qc) (s : list row)
    (hg hg' rg rg' : Qc) :
  (1 <= exit_year p)%Z ->
  0 <= price p -> sell_commission p <= Zc 100 -> 0 <= rent0 p ->
  0 <= 1 + hg / Zc 100 -> 0 <= 1 + rg / Zc 100 ->
  0 < 1 + inflation p / Zc 100 -> 0 < 1 + disc p / Zc 100 ->
  hg <= hg' -> rg <= rg' ->
  exists b rr b' rr',
    compute_npv p e s hg rg = Ok (b, rr) /\
    compute_npv p e s hg' rg' = Ok (b', rr') /\
    compute_npv p e s hg' rg = Ok (b', rr) /\
    b <= b' /\ rr' <= rr.
Proof.
  intros Hy Hp Hs Hr Hbh Hbr Hinf Hdisc Hg Hrg.
  assert (Hi : 1 + inflation p / Zc 100 <> 0) by (qc2q; lra).
  assert (Hd : 1 + disc p / Zc 100 <> 0) by (qc2q; lra).
  pose proof (fisher_base_pos p Hinf Hdisc) as Hbase.
  exists (disc_sum (fisher p) 0 (buy_series p e s hg) 0),
    (disc_sum (fisher p) 0 (rent_series p rg) 0),
    (disc_sum (fisher p) 0 (buy_series p e s hg') 0),
    (disc_sum (fisher p) 0 (rent_series p rg') 0).
  split; [now apply compute_npv_ok|].
  split; [now apply compute_npv_ok|].
  split; [now apply compute_npv_ok|].
  split; [now apply npv_buy_mono | now apply npv_rent_antitone].
Qed.

Lemma compute_npv_monotone_witness :
  ((1 <= exit_year defaults)%Z /\
   0 <= price defaults /\ sell_commission defaults <= Zc 100 /\
   0 <= rent0 defaults /\
   0 <= 1 + Zc 5 / Zc 100 /\ 0 <= 1 + Zc 5 / Zc 100 /\
   0 < 1 + inflation defaults / Zc 100 /\ 0 < 1 + disc defaults / Zc 100 /\
   Zc 5 <= Zc 8 /\ Zc 5 <= Zc 7) /\
  exists b rr b' rr',
    compute_npv defaults (Zc 55540) [] (Zc 5) (Zc 5) = Ok (b, rr) /\
    compute_npv defaults (Zc 55540) [] (Zc 8) (Zc 7) = Ok (b', rr') /\
    b <= b' /\ rr' <= rr.
Proof.
  assert (H1 : (1 <= exit_year defaults)%Z) by discriminate.
  assert (H2 : 0 <= price defaults) by qc_compute.
  assert (H3 : sell_commission defaults <= Zc 100) by qc_compute.
  assert (H4 : 0 <= rent0 defaults) by qc_compute.
  assert (H5 : 0 <= 1 + Zc 5 / Zc 100) by qc_compute.
  assert (H6 : 0 < 1 + inflation defaults / Zc 100) by qc_compute.
  assert (H7 : 0 < 1 + disc defaults / Zc 100) by qc_compute.
  assert (H8 : Zc 5 <= Zc 8) by qc_compute.
  assert (H9 : Zc 5 <= Zc 7) by qc_compute.
  split; [repeat split; assumption|].
  destruct (compute_npv_monotone defaults (Zc 55540) [] (Zc 5) (Zc 8)
              (Zc 5) (Zc 7) H1 H2 H3 H4 H5 H5 H6 H7 H8 H9)
    as (b & rr & b' & rr' & E1 & E2 & _ & Hb & Hr).
  exists b, rr, b', rr'.
  split; [exact E1|]. split; [exact E2|]. split; [exact Hb | exact Hr].
Defined.

(** ** The scenario table *)

Lemma shift_le (g d d' : Qc) : 0 <= d -> 0 <= d' -> g - d <= g /\ g <= g + d'.
Proof. intros Hd Hd'. split; qc2q; lra. Qed.

(** X12.  With a positive loan rate and tenure, a horizon of at least one
    year and non-zero inflation and discount factors, the scenario table
    has the three rows Base, Boom and Crash in this order, each with the
    two NPVs of [compute_npv] at its growth rates and their difference in
    the last column. *)
Theorem scenario_table_rows (p : inputs) :
  0 < r p -> (0 < n p)%Z -> (1 <= exit_year p)%Z ->
  1 + inflation p / Zc 100 <> 0 -> 1 + disc p / Zc 100 <> 0 ->
  exists b0 r0 b1 r1 b2 r2,
    scenario_table p =
    Ok [mkScenario "Base" b0 r0 (b0 - r0);
        mkScenario "Boom" b1 r1 (b1 - r1);
        mkScenario "Crash" b2 r2 (b2 - r2)] /\
    pipeline p (house_growth p) (rent_growth p) = Ok (b0, r0) /\
    pipeline p (house_growth p + Zc 3) (rent_growth p + Zc 2) = Ok (b1, r1) /\
    pipeline p (house_growth p - Zc 3) (rent_growth p - Zc 1) = Ok (b2, r2).
Proof.
  intros Hr Hn Hy Hi Hd.
  set (e := annuity (loan_amt p) (r p) (n p)).
  set (s := schedule p e).
  exists (disc_sum (fisher p) 0 (buy_series p e s (house_growth p)) 0),
    (disc_sum (fisher p) 0 (rent_series p (rent_growth p)) 0),
    (disc_sum (fisher p) 0 (buy_series p e s (house_growth p + Zc 3)) 0),
    (disc_sum (fisher p) 0 (rent_series p (rent_growth p + Zc 2)) 0),
    (disc_sum (fisher p) 0 (buy_series p e s (house_growth p - Zc 3)) 0),
    (disc_sum (fisher p) 0 (rent_series p (rent_growth p - Zc 1)) 0).
  split.
  - unfold scenario_table, scenarios. rewrite (emi_ok p Hr Hn). cbn [bind].
    cbn [scenario_loop].
    rewrite !(compute_npv_ok p) by assumption. reflexivity.
  - split; [|split]; apply pipeline_value; assumption.
Qed.

Lemma scenario_table_rows_witness :
  (0 < r defaults /\ (0 < n defaults)%Z /\ (1 <= exit_year defaults)%Z /\
   1 + inflation defaults / Zc 100 <> 0 /\ 1 + disc defaults / Zc 100 <> 0) /\
  exists b0 r0 b1 r1 b2 r2,
    scenario_table defaults =
    Ok [mkScenario "Base" b0 r0 (b0 - r0);
        mkScenario "Boom" b1 r1 (b1 - r1);
        mkScenario "Crash" b2 r2 (b2 - r2)].
Proof.
  assert (H1 : 0 < r defaults) by qc_compute.
  assert (H2 : (0 < n defaults)%Z) by reflexivity.
  assert (H3 : (1 <= exit_year defaults)%Z) by discriminate.
  assert (H4 : 1 + inflation defaults / Zc 100 <> 0) by qc_compute.
  assert (H5 : 1 + disc defaults / Zc 100 <> 0) by qc_compute.
  split; [repeat split; assumption|].
  destruct (scenario_table_rows defaults H1 H2 H3 H4 H5)
    as (b0 & r0 & b1 & r1 & b2 & r2 & E & _).
  exists b0, r0, b1, r1, b2, r2. exact E.
Defined.

Lemma ordered_rows (n0 n1 n2 : string) (b0 r0 b1 r1 b2 r2 : Qc) :
  b2 <= b0 -> b0 <= b1 -> r1 <= r0 -> r0 <= r2 ->
  let base := mkScenario n0 b0 r0 (b0 - r0) in
  let boom := mkScenario n1 b1 r1 (b1 - r1) in
  let crash := mkScenario n2 b2 r2 (b2 - r2) in
  NPV_Buy crash <= NPV_Buy base /\ NPV_Buy base <= NPV_Buy boom /\
  NPV_Rent boom <= NPV_Rent base /\ NPV_Rent base <= NPV_Rent crash /\
  Buy_Rent crash <= Buy_Rent base /\ Buy_Rent base <= Buy_Rent boom.
Proof.
  intros H1 H2 H3 H4. cbn.
  split; [exact H1|]. split; [exact H2|].
  split; [exact H3|]. split; [exact H4|].
  split; qc2q; lra.
Qed.

Lemma scenario_values_ordered (p : inputs) :
  0 < r p -> (0 < n p)%Z -> (1 <= exit_year p)%Z ->
  0 <= price p -> sell_commission p <= Zc 100 -> 0 <= rent0 p ->
  0 <= 1 + (house_growth p - Zc 3) / Zc 100 ->
  0 <= 1 + (rent_growth p - Zc 1) / Zc 100 ->
  0 < 1 + inflation p / Zc 100 -> 0 < 1 + disc p / Zc 100 ->
  exists b0 r0 b1 r1 b2 r2,
    scenario_table p =
    Ok [mkScenario "Base" b0 r0 (b0 - r0);
        mkScenario "Boom" b1 r1 (b1 - r1);
        mkScenario "Crash" b2 r2 (b2 - r2)] /\
    b2 <= b0 /\ b0 <= b1 /\ r1 <= r0 /\ r0 <= r2.
Proof.
  intros Hr Hn Hy Hp Hs Hr0 Hbh Hbr Hinf Hdisc.
  assert (Hi : 1 + inflation p / Zc 100 <> 0) by (qc2q; lra).
  assert (Hd : 1 + disc p / Zc 100 <> 0) by (qc2q; lra).
  pose proof (fisher_base_pos p Hinf Hdisc) as Hbase.
  assert (Hh : house_growth p - Zc 3 <= house_growth p
               /\ house_growth p <= house_growth p + Zc 3)
    by (apply shift_le; qc_compute).
  assert (Hg : rent_growth p - Zc 1 <= rent_growth p
               /\ rent_growth p <= rent_growth p + Zc 2)
    by (apply shift_le; qc_compute).
  assert (Hbh' : 0 <= 1 + house_growth p / Zc 100).
  { eapply Qcle_trans; [exact Hbh|]. apply growth_base_mono, Hh. }
  assert (Hbr' : 0 <= 1 + rent_growth p / Zc 100).
  { eapply Qcle_trans; [exact Hbr|]. apply growth_base_mono, Hg. }
  set (e := annuity (loan_amt p) (r p) (n p)).
  set (s := schedule p e).
  exists (disc_sum (fisher p) 0 (buy_series p e s (house_growth p)) 0),
    (disc_sum (fisher p) 0 (rent_series p (rent_growth p)) 0),
    (disc_sum (fisher p) 0 (buy_series p e s (house_growth p + Zc 3)) 0),
    (disc_sum (fisher p) 0 (rent_series p (rent_growth p + Zc 2)) 0),
    (disc_sum (fisher p) 0 (buy_series p e s (house_growth p - Zc 3)) 0),
    (disc_sum (fisher p) 0 (rent_series p (rent_growth p - Zc 1)) 0).
  split.
  { unfold scenario_table, scenarios. rewrite (emi_ok p Hr Hn). cbn [bind].
    cbn [scenario_loop].
    rewrite !(compute_npv_ok p) by assumption. reflexivity. }
  split; [exact (npv_buy_mono p e s _ _ Hy Hp Hs Hbh (proj1 Hh) Hbase)|].
  split; [exact (npv_buy_mono p e s _ _ Hy Hp Hs Hbh' (proj2 Hh) Hbase)|].
  split; [exact (npv_rent_antitone p _ _ Hy Hr0 Hbr' (proj2 Hg) Hbase)|].
  exact (npv_rent_antitone p _ _ Hy Hr0 Hbr (proj1 Hg) Hbase).
Qed.

(** X13.  With, in addition, a non-negative price and rent, a selling
    commission of at most 100% and non-negative growth factors in the Crash
    scenario, the table is ordered: NPV-buy grows from Crash to Base to
    Boom, NPV-rent falls, and so the Buy-Rent column grows. *)
Theorem scenario_table_ordered (p : inputs) :
  0 < r p -> (0 < n p)%Z -> (1 <= exit_year p)%Z ->
  0 <= price p -> sell_commission p <= Zc 100 -> 0 <= rent0 p ->
  0 <= 1 + (house_growth p - Zc 3) / Zc 100 ->
  0 <= 1 + (rent_growth p - Zc 1) / Zc 100 ->
  0 < 1 + inflation p / Zc 100 -> 0 < 1 + disc p / Zc 100 ->
  exists base boom crash,
    scenario_table p = Ok [base; boom; crash] /\
    NPV_Buy crash <= NPV_Buy base /\ NPV_Buy base <= NPV_Buy boom /\
    NPV_Rent boom <= NPV_Rent base /\ NPV_Rent base <= NPV_Rent crash /\
    Buy_Rent crash <= Buy_Rent base /\ Buy_Rent base <= Buy_Rent boom.
Proof.
  intros Hr Hn Hy Hp Hs Hr0 Hbh Hbr Hinf Hdisc.
  destruct (scenario_values_ordered p Hr Hn Hy Hp Hs Hr0 Hbh Hbr Hinf Hdisc)
    as (b0 & r0 & b1 & r1 & b2 & r2 & E & H1 & H2 & H3 & H4).
  exists (mkScenario "Base" b0 r0 (b0 - r0)),
    (mkScenario "Boom" b1 r1 (b1 - r1)),
    (mkScenario "Crash" b2 r2 (b2 - r2)).
  split; [exact E|].
  exact (ordered_rows _ _ _ _ _ _ _ _ _ H1 H2 H3 H4).
Qed.

Lemma scenario_table_ordered_witness :
  (0 < r defaults /\ (0 < n defaults)%Z /\ (1 <= exit_year defaults)%Z /\
   0 <= price defaults /\ sell_commission defaults <= Zc 100 /\
   0 <= rent0 defaults /\
   0 <= 1 + (house_growth defaults - Zc 3) / Zc 100 /\
   0 <= 1 + (rent_growth defaults - Zc 1) / Zc 100 /\
   0 < 1 + inflation defaults / Zc 100 /\ 0 < 1 + disc defaults / Zc 100) /\
  exists base boom crash,
    scenario_table defaults = Ok [base; boom; crash] /\
    Buy_Rent crash <= Buy_Rent base /\ Buy_Rent base <= Buy_Rent boom.
Proof.
  assert (H1 : 0 < r defaults) by qc_compute.
  assert (H2 : (0 < n defaults)%Z) by reflexivity.
  assert (H3 : (1 <= exit_year defaults)%Z) by discriminate.
  assert (H4 : 0 <= price defaults) by qc_compute.
  assert (H5 : sell_commission defaults <= Zc 100) by qc_compute.
  assert (H6 : 0 <= rent0 defaults) by qc_compute.
  assert (H7 : 0 <= 1 + (house_growth defaults - Zc 3) / Zc 100)
    by qc_compute.
  assert (H8 : 0 <= 1 + (rent_growth defaults - Zc 1) / Zc 100)
    by qc_compute.
  assert (H9 : 0 < 1 + inflation defaults / Zc 100) by qc_compute.
  assert (H10 : 0 < 1 + disc defaults / Zc 100) by qc_compute.
  split; [repeat split; assumption|].
  destruct (scenario_table_ordered defaults H1 H2 H3 H4 H5 H6 H7 H8 H9 H10)
    as (base & boom & crash & E & _ & _ & _ & _ & Hc & Hb).
  exists base, boom, crash.
  split; [exact E|]. split; [exact Hc | exact Hb].
Defined.

(** ** The holding-period loop *)

Lemma set_exit_year_same (p : inputs) : set_exit_year p (exit_year p) = p.
Proof. destruct p. reflexivity. Qed.

Lemma sweep_loop_ok (e : Qc) (s : list row) (ys : list Z) :
  Forall (fun y => (1 <= y)%Z) ys ->
  forall (q : inputs) (buy_vals rent_vals : list Qc),
    1 + inflation q / Zc 100 <> 0 -> 1 + disc q / Zc 100 <> 0 ->
    sweep_loop q e s ys buy_vals rent_vals =
    Ok (buy_vals
        ++ map (fun y => disc_sum (fisher q) 0
                           (buy_series (set_exit_year q y) e s
                              (house_growth q)) 0) ys,
        rent_vals
        ++ map (fun y => disc_sum (fisher q) 0
                           (rent_series (set_exit_year q y)
                              (rent_growth q)) 0) ys).
Proof.
  induction 1 as [|y ys Hy _ IH]; intros q bv rv Hi Hd.
  - cbn. now rewrite !app_nil_r.
  - cbn [sweep_loop map].
    rewrite (compute_npv_ok (set_exit_year q y) e s _ _ Hy Hi Hd).
    cbn [bind]. rewrite (IH (set_exit_year q y)) by assumption.
    rewrite <- !app_assoc. reflexivity.
Qed.

Lemma years_from_one : Forall (fun y => (1 <= y)%Z) years.
Proof. apply Forall_forall. intros y Hy. apply range_In in Hy. lia. Qed.

(** X14.  With a positive loan rate and tenure and non-zero inflation and
    discount factors the holding-period loop ends with 23 values in each
    list; the values at position [y-3] are the pair [compute_npv] returns
    with [exit_year = y] on the [emi] and [sched] of the slider, and the
    pair at the slider's own horizon is the pair of the Base scenario. *)
Theorem holding_period_sweep_points (p : inputs) :
  0 < r p -> (0 < n p)%Z ->
  1 + inflation p / Zc 100 <> 0 -> 1 + disc p / Zc 100 <> 0 ->
  exists buy_vals rent_vals,
    holding_period_sweep p = Ok (buy_vals, rent_vals) /\
    length buy_vals = 23%nat /\ length rent_vals = 23%nat /\
    (forall y, (3 <= y <= 25)%Z ->
       exists b rr,
         sweep_point p y = Ok (b, rr) /\
         nth_error buy_vals (Z.to_nat (y - 3)) = Some b /\
         nth_error rent_vals (Z.to_nat (y - 3)) = Some rr) /\
    ((3 <= exit_year p <= 25)%Z ->
       exists b rr,
         pipeline p (house_growth p) (rent_growth p) = Ok (b, rr) /\
         nth_error buy_vals (Z.to_nat (exit_year p - 3)) = Some b /\
         nth_error rent_vals (Z.to_nat (exit_year p - 3)) = Some rr).
Proof.
  intros Hr Hn Hi Hd.
  set (e := annuity (loan_amt p) (r p) (n p)).
  set (s := schedule p e).
  set (fb := fun y => disc_sum (fisher p) 0
                        (buy_series (set_exit_year p y) e s
                           (house_growth p)) 0).
  set (fr := fun y => disc_sum (fisher p) 0
                        (rent_series (set_exit_year p y) (rent_growth p)) 0).
  assert (Hpoint : forall y, (3 <= y <= 25)%Z ->
            sweep_point p y = Ok (fb y, fr y) /\
            nth_error (map fb years) (Z.to_nat (y - 3)) = Some (fb y) /\
            nth_error (map fr years) (Z.to_nat (y - 3)) = Some (fr y)).
  { intros y Hy.
    assert (Hnth : nth_error years (Z.to_nat (y - 3)) = Some y).
    { unfold years. rewrite range_nth_error by lia. f_equal. lia. }
    split; [apply sweep_point_value; assumption || lia|].
    split; rewrite nth_error_map, Hnth; reflexivity. }
  exists (map fb years), (map fr years).
  split.
  { unfold holding_period_sweep. rewrite (emi_ok p Hr Hn). cbn [bind].
    exact (sweep_loop_ok e s years years_from_one p [] [] Hi Hd). }
  split; [reflexivity|]. split; [reflexivity|]. split.
  - intros y Hy. exists (fb y), (fr y). now apply Hpoint.
  - intro Hy. exists (fb (exit_year p)), (fr (exit_year p)).
    destruct (Hpoint _ Hy) as (Hs & Hb & Hrr).
    split; [|split; assumption].
    rewrite <- Hs, (sweep_within_slider p (exit_year p)) by lia.
    now rewrite set_exit_year_same.
Qed.

Lemma holding_period_sweep_points_witness :
  (0 < r defaults /\ (0 < n defaults)%Z /\
   1 + inflation defaults / Zc 100 <> 0 /\
   1 + disc defaults / Zc 100 <> 0) /\
  exists buy_vals rent_vals,
    holding_period_sweep defaults = Ok (buy_vals, rent_vals) /\
    length buy_vals = 23%nat /\ length rent_vals = 23%nat.
Proof.
  assert (H1 : 0 < r defaults) by qc_compute.
  assert (H2 : (0 < n defaults)%Z) by reflexivity.
  assert (H3 : 1 + inflation defaults / Zc 100 <> 0) by qc_compute.
  assert (H4 : 1 + disc defaults / Zc 100 <> 0) by qc_compute.
  split; [repeat split; assumption|].
  destruct (holding_period_sweep_points defaults H1 H2 H3 H4)
    as (bv & rv & E & Lb & Lr & _).
  exists bv, rv. split; [exact E|]. split; [exact Lb | exact Lr].
Defined.

(** X15.  At every horizon [y >= 1] the sweep returns the NPV-rent of a
    full run of the script with [exit_year = y]; its NPV-buy is that of the
    full run when [y] does not exceed the slider's horizon. *)
Theorem sweep_point_against_full_run (p : inputs) (y : Z) :
  0 < r p -> (0 < n p)%Z -> (1 <= y)%Z ->
  1 + inflation p / Zc 100 <> 0 -> 1 + disc p / Zc 100 <> 0 ->
  exists b rr b',
    sweep_point p y = Ok (b, rr) /\
    pipeline (set_exit_year p y) (house_growth p) (rent_growth p)
    = Ok (b', rr) /\
    ((y <= exit_year p)%Z -> b = b').
Proof.
  intros Hr Hn Hy Hi Hd.
  pose proof (sweep_point_value p y Hr Hn Hy Hi Hd) as Hs.
  pose proof (pipeline_value (set_exit_year p y) (house_growth p)
                (rent_growth p) Hr Hn Hy Hi Hd) as Hp.
  cbn zeta in Hs, Hp.
  eexists. eexists. eexists.
  split; [exact Hs|]. split; [exact Hp|].
  intro Hle. pose proof (sweep_within_slider p y Hle) as E.
  rewrite Hs, Hp in E. now injection E.
Qed.

Lemma sweep_point_against_full_run_witness :
  (0 < r defaults /\ (0 < n defaults)%Z /\ (1 <= 7)%Z /\
   1 + inflation defaults / Zc 100 <> 0 /\
   1 + disc defaults / Zc 100 <> 0) /\
  exists b rr,
    sweep_point defaults 7 = Ok (b, rr) /\
    pipeline (set_exit_year defaults 7) (house_growth defaults)
      (rent_growth defaults) = Ok (b, rr).
Proof.
  assert (H1 : 0 < r defaults) by qc_compute.
  assert (H2 : (0 < n defaults)%Z) by reflexivity.
  assert (H3 : (1 <= 7)%Z) by discriminate.
  assert (H4 : 1 + inflation defaults / Zc 100 <> 0) by qc_compute.
  assert (H5 : 1 + disc defaults / Zc 100 <> 0) by qc_compute.
  split; [repeat split; assumption|].
  destruct (sweep_point_against_full_run defaults 7 H1 H2 H3 H4 H5)
    as (b & rr & b' & Es & Ep & Hb).
  exists b, rr. split; [exact Es|].
  rewrite (Hb ltac:(discriminate)). exact Ep.
Defined.

(** ** EMI: sign *)

Lemma emi_value (p : inputs) :
  0 < r p -> tenure p <> 0%Z ->
  emi p = Ok (annuity (loan_amt p) (r p) (n p)).
Proof.
  intros Hr Ht. unfold emi, annuity.
  assert (Hb : 1 < 1 + r p) by (qc2q; lra).
  rewrite pow_nonzero by (qc2q; lra). cbn [bind].
  apply div_nonzero.
  pose proof (powZ_neq_1 (1 + r p) (n p) Hb) as H.
  intro E. apply H; [unfold n; lia|]. qc2q. lra.
Qed.

Lemma inv_neg (d : Qc) : d < 0 -> / d < 0.
Proof.
  intro Hd. assert (Hnz : d <> 0) by (qc2q; lra).
  pose proof (Qcmult_inv_r d Hnz) as H.
  remember (/ d) as v. clear - Hd H. qc2q. nra.
Qed.

Lemma powZ_neg_below_1 (b : Qc) (k : positive) :
  1 < b -> 0 < powZ b (Z.neg k) /\ powZ b (Z.neg k) < 1.
Proof.
  intro Hb. cbn [powZ].
  assert (Hg : 1 < b ^ Pos.to_nat k) by (apply Qcpower_gt1; [exact Hb | lia]).
  assert (Hnz : b ^ Pos.to_nat k <> 0) by (qc2q; lra).
  pose proof (Qcmult_inv_r _ Hnz) as H.
  remember (b ^ Pos.to_nat k) as g. remember (/ g) as v.
  clear - Hg H. split; qc2q; nra.
Qed.

Lemma negative_ratio (a g v : Qc) : 0 < a -> 0 < g -> v < 0 -> a * g * v < 0.
Proof.
  intros Ha Hg Hv. qc2q.
  assert (H : (0 < a * g)%Q) by nra. nra.
Qed.

(** X16.  With a positive loan and loan rate, every tenure other than 0
    gives an EMI: for a positive tenure it exceeds the first month's
    interest, so that the loan is paid down; for a negative tenure it is
    negative. *)
Theorem emi_sign (p : inputs) :
  0 < loan_amt p -> 0 < r p -> tenure p <> 0%Z ->
  exists e,
    emi p = Ok e /\
    ((0 < tenure p)%Z -> loan_amt p * r p < e) /\
    ((tenure p < 0)%Z -> e < 0).
Proof.
  intros HP Hr Ht. exists (annuity (loan_amt p) (r p) (n p)).
  split; [now apply emi_value|]. split.
  - intro Hpos. assert (Hn : (0 < n p)%Z) by (unfold n; lia).
    assert (Hg : 1 < powZ (1 + r p) (n p))
      by (apply powZ_gt1; [qc2q; lra | exact Hn]).
    assert (Hd : powZ (1 + r p) (n p) - 1 <> 0) by (qc2q; lra).
    destruct (annuity_split (loan_amt p) (r p) (n p) Hd) as [Hc _].
    pose proof (annuity_factor_pos _ _ _ HP Hr Hn) as Hf.
    rewrite <- Hc in Hf.
    remember (annuity (loan_amt p) (r p) (n p)) as e.
    remember (loan_amt p * r p) as a. clear - Hf. qc2q. lra.
  - intro Hneg. unfold annuity, n.
    destruct (tenure p * 12)%Z as [|k|k] eqn:Ek; try lia.
    assert (Hb : 1 < 1 + r p) by (qc2q; lra).
    destruct (powZ_neg_below_1 (1 + r p) k Hb) as [Hg0 Hg1].
    assert (Hv : / (powZ (1 + r p) (Z.neg k) - 1) < 0)
      by (apply inv_neg; qc2q; lra).
    unfold Qcdiv. apply negative_ratio; [|exact Hg0 | exact Hv].
    clear - HP Hr. qc2q. nra.
Qed.

Lemma emi_sign_witness :
  (0 < loan_amt (set_tenure defaults (-20)) /\
   0 < r (set_tenure defaults (-20)) /\
   tenure (set_tenure defaults (-20)) <> 0%Z) /\
  exists e, emi (set_tenure defaults (-20)) = Ok e /\ e < 0.
Proof.
  assert (H1 : 0 < loan_amt (set_tenure defaults (-20))) by qc_compute.
  assert (H2 : 0 < r (set_tenure defaults (-20))) by qc_compute.
  assert (H3 : tenure (set_tenure defaults (-20)) <> 0%Z) by discriminate.
  split; [repeat split; assumption|].
  destruct (emi_sign (set_tenure defaults (-20)) H1 H2 H3)
    as (e & He & _ & Hneg).
  exists e. split; [exact He | exact (Hneg eq_refl)].
Defined.

(** ** The rows of a year window *)

Lemma year_rows_all (p : inputs) (e : Qc) (ms : list Z) (b : Qc) (y : Z) :
  (forall m, In m ms -> (12 * (y - 1) <= m <= 12 * y)%Z) ->
  year_rows (schedule_loop p e ms b) y = schedule_loop p e ms b.
Proof.
  revert b. induction ms as [|m ms IH]; intros b Hin; [reflexivity|].
  cbn [schedule_loop]. unfold year_rows. cbn [filter Year].
  replace (between (Zc (y - 1)) (Zc y) (Zc m / Zc 12)) with true
    by (symmetry; apply between_months, Hin; now left).
  f_equal. apply IH. intros; apply Hin; now right.
Qed.

(** X17.  For a year [y] of the horizon the filter of [compute_npv] selects
    the rows of the months [max(1, 12(y-1)) .. 12y], a contiguous block of
    the schedule: twelve rows for year 1 and thirteen for every later
    year. *)
Theorem year_window_rows (p : inputs) (e : Qc) (y : Z) :
  (1 <= y <= exit_year p)%Z ->
  let lo := Z.max 1 (12 * (y - 1)) in
  year_rows (schedule p e) y
  = firstn (Z.to_nat (12 * y - lo + 1))
      (skipn (Z.to_nat (lo - 1)) (schedule p e)) /\
  length (year_rows (schedule p e) y) = (if (y =? 1)%Z then 12 else 13)%nat.
Proof.
  intros Hy lo.
  assert (Hlo : (1 <= lo <= 12 * y)%Z) by lia.
  assert (Eq : year_rows (schedule p e) y
               = firstn (Z.to_nat (12 * y - lo + 1))
                   (skipn (Z.to_nat (lo - 1)) (schedule p e))).
  { unfold schedule.
    rewrite (range_app 1 lo (exit_year p * 12 + 1)) by lia.
    rewrite (range_app lo (12 * y + 1) (exit_year p * 12 + 1)) by lia.
    rewrite !schedule_loop_app.
    set (A := schedule_loop p e (range 1 lo) (loan_amt p)).
    set (bA := end_balance p e (range 1 lo) (loan_amt p)).
    set (B := schedule_loop p e (range lo (12 * y + 1)) bA).
    set (C := schedule_loop p e (range (12 * y + 1) (exit_year p * 12 + 1))
                (end_balance p e (range lo (12 * y + 1)) bA)).
    assert (LA : length A = Z.to_nat (lo - 1))
      by (unfold A; now rewrite schedule_loop_length, range_length).
    assert (LB : length B = Z.to_nat (12 * y - lo + 1)).
    { unfold B. rewrite schedule_loop_length, range_length. f_equal. lia. }
    rewrite !year_rows_app.
    unfold A at 1.
    rewrite year_rows_none
      by (intros m Hm; apply range_In in Hm; lia).
    unfold C at 1.
    rewrite year_rows_none
      by (intros m Hm; apply range_In in Hm; lia).
    unfold B at 1.
    rewrite year_rows_all
      by (intros m Hm; apply range_In in Hm; lia).
    fold B. cbn [app]. rewrite app_nil_r.
    rewrite <- LA, skipn_app, skipn_all, Nat.sub_diag. cbn [skipn app].
    rewrite <- LB, firstn_app, firstn_all, Nat.sub_diag. cbn [firstn].
    now rewrite app_nil_r. }
  split; [exact Eq|].
  rewrite Eq, length_firstn, length_skipn, schedule_length.
  destruct (y =? 1)%Z eqn:E1.
  - apply Z.eqb_eq in E1. lia.
  - apply Z.eqb_neq in E1. lia.
Qed.

Lemma year_window_rows_witness :
  (1 <= 2 <= exit_year defaults)%Z /\
  year_rows (schedule defaults (Zc 55540)) 2
  = firstn 13 (skipn 11 (schedule defaults (Zc 55540))).
Proof.
  assert (H : (1 <= 2 <= exit_year defaults)%Z) by (split; discriminate).
  split; [exact H|].
  exact (proj1 (year_window_rows defaults (Zc 55540) 2 H)).
Defined.

(** ** The buy path *)

(** X18.  When [compute_npv] has built its lists, the buy list has one
    entry more than the rent list: entry 0 is the down payment and the buy
    commission paid out, and the entry of every year [y] of the horizon is
    twelve EMIs and the maintenance paid out plus the tax saving on that
    year's aggregates, with the resale proceeds added in the last year. *)
Theorem buy_cash_flow_by_year (p : inputs) (e : Qc) (sched : list row)
    (hg rg : Qc) :
  (1 <= exit_year p)%Z ->
  exists cf_buy cf_rent,
    cashflows p e sched hg rg = Ok (cf_buy, cf_rent) /\
    length cf_buy = S (length cf_rent) /\
    length cf_rent = Z.to_nat (exit_year p) /\
    nth_error cf_buy 0
    = Some (- (price p * down_pct p + price p * buy_commission p / Zc 100)) /\
    (forall y, (1 <= y <= exit_year p)%Z ->
       nth_error cf_buy (Z.to_nat y)
       = Some (- (e * Zc 12 + price p * (maintenance_pct p / Zc 100))
               + tax_saving p (year_sum Interest sched y)
                   (year_sum Principal sched y)
               + (if (y =? exit_year p)%Z
                  then price p * powZ (1 + hg / Zc 100) (exit_year p)
                       * (1 - sell_commission p / Zc 100)
                  else 0))).
Proof.
  intro H. exists (buy_series p e sched hg), (rent_series p rg).
  split; [now apply cashflows_ok|].
  rewrite buy_series_as_map, rent_series_as_map by exact H.
  cbn [length]. rewrite !length_map, range_length.
  split; [reflexivity|]. split; [f_equal; lia|].
  split.
  - cbn [nth_error]. f_equal. unfold upfront. ring.
  - intros y Hy.
    replace (Z.to_nat y) with (S (Z.to_nat (y - 1))) by lia.
    cbn [nth_error]. rewrite nth_error_map, range_nth_error by lia.
    cbn [option_map].
    replace (1 + Z.of_nat (Z.to_nat (y - 1)))%Z with y by lia.
    reflexivity.
Qed.

Lemma buy_cash_flow_by_year_witness :
  (1 <= exit_year defaults)%Z /\
  exists cf_buy cf_rent,
    cashflows defaults (Zc 55540) [] (Zc 5) (Zc 5) = Ok (cf_buy, cf_rent) /\
    length cf_buy = S (length cf_rent) /\
    nth_error cf_buy 0 = Some (Zc (-1680000)).
Proof.
  assert (H : (1 <= exit_year defaults)%Z) by discriminate.
  split; [exact H|].
  destruct (buy_cash_flow_by_year defaults (Zc 55540) [] (Zc 5) (Zc 5) H)
    as (cb & cr & E & L & _ & H0 & _).
  exists cb, cr. split; [exact E|]. split; [exact L|].
  rewrite H0. f_equal; qc_compute.
Defined.

(** ** A loan rate of zero *)

(** X19.  A loan rate of 0 makes [(1+r)**n - 1] zero for every tenure: the
    EMI line fails with [ZeroDivisionError], and with it every NPV, the
    scenario table and the holding-period loop. *)
Theorem zero_loan_rate_fails (p : inputs) (hg rg : Qc) :
  loan_rate p = 0 ->
  emi p = Raise ZeroDivisionError /\
  pipeline p hg rg = Raise ZeroDivisionError /\
  scenario_table p = Raise ZeroDivisionError /\
  holding_period_sweep p = Raise ZeroDivisionError.
Proof.
  intro H.
  assert (Hb : 1 + r p = 1).
  { unfold r. rewrite H. apply Qc_is_canon. reflexivity. }
  assert (He : emi p = Raise ZeroDivisionError).
  { unfold emi. rewrite Hb, pow_nonzero by discriminate. cbn [bind].
    rewrite powZ_one. reflexivity. }
  unfold pipeline, scenario_table, holding_period_sweep.
  rewrite He. repeat split.
Qed.

Lemma zero_loan_rate_fails_witness :
  let p := mkInputs (Zc 8000000) (Zc 2 / Zc 10) 0 20
             (Zc 25000) (Zc 5) (Zc 5) (Zc 10) (Zc 5) (Zc 8) 10
             (Zc 1) (Zc 1) (Zc 1) (Zc 30) (Zc 200000) (Zc 150000) in
  loan_rate p = 0 /\ emi p = Raise ZeroDivisionError.
Proof.
  intro p. split; [reflexivity|].
  exact (proj1 (zero_loan_rate_fails p (Zc 5) (Zc 5) eq_refl)).
Defined.
